(** * Study assistant: document chunking and retrieval core

    A shallow embedding of [src/utils/document_processor.py]
    ([DocumentProcessor.clean_text], [DocumentProcessor.create_chunks]) and of
    [src/utils/rag_system.py] ([RAGSystem.create_embeddings], [create_index],
    [load_index], [search], [generate_quiz_questions], [generate_flashcards]),
    together with the properties of the specification that concern them.

    Python values are modelled as follows: [int] is [Z]; [str] is a list of
    Unicode code points; a [dict] with string keys is a [gmap]; [float] is an
    exact rational; an exception is the name of its class, and a raising call
    keeps every assignment made before the [raise]. *)

From Stdlib Require Import ZArith NArith QArith Qminmax Lia List Ascii String
  DecimalString.
From stdpp Require Import base option list gmap strings.

Local Open Scope Z_scope.

(** ** Python strings *)

Module PyStr.

(** A code point, and a [str]. *)
Definition char : Type := N.
Definition str : Type := list char.

(** A literal of the source, written in ASCII. *)
Definition lit (s : string) : str :=
  List.map N_of_ascii (list_ascii_of_string s).

Definition NUL : char := 0%N.
Definition LF : char := 10%N.
Definition SP : char := 32%N.

(** [len(s)], for a string or a list. *)
Definition len {A} (s : list A) : Z := Z.of_nat (length s).

(** [Py_UNICODE_ISSPACE]: the code points matched by [\s] in a [str] pattern
    and stripped by [str.strip()]. *)
Definition isspace (c : char) : bool :=
  ((9 <=? c) && (c <=? 13) || (28 <=? c) && (c <=? 32)
   || (c =? 133) || (c =? 160) || (c =? 5760)
   || (8192 <=? c) && (c <=? 8202)
   || (c =? 8232) || (c =? 8233) || (c =? 8239) || (c =? 8287)
   || (c =? 12288))%N.

(** [re.sub(r'C{m,}', repl, s)] for a character class [C] and [m >= 1].  The
    scan goes left to right; the greedy quantifier takes a maximal run of class
    characters, held in [run], and the run is a match when it has at least [m]
    characters.  A shorter run is copied unchanged. *)
Definition flush_run (m : nat) (repl run : str) : str :=
  if (m <=? length run)%nat then repl else run.

Fixpoint re_sub_run (cls : char → bool) (m : nat) (repl run s : str) : str :=
  match s with
  | [] => flush_run m repl run
  | c :: r =>
      if cls c then re_sub_run cls m repl (run ++ [c]) r
      else flush_run m repl run ++ c :: re_sub_run cls m repl [] r
  end.

Definition re_sub_class (cls : char → bool) (m : nat) (repl s : str) : str :=
  re_sub_run cls m repl [] s.

(** [s.replace(ch, '')] for a single character [ch]. *)
Definition remove_char (ch : char) (s : str) : str :=
  List.filter (λ c, negb (c =? ch)%N) s.

(** [s.lstrip()], [s.rstrip()], [s.strip()] *)
Fixpoint lstrip (s : str) : str :=
  match s with
  | [] => []
  | c :: r => if isspace c then lstrip r else s
  end.

Definition rstrip (s : str) : str := rev (lstrip (rev s)).

Definition strip (s : str) : str := rstrip (lstrip s).

(** Text that does not start with whitespace. *)
Definition no_lead (s : str) : Prop :=
  match s with [] => True | c :: _ => isspace c = false end.

(** A slice bound [i] of a sequence of length [n]: a negative bound counts
    from the end, and both are clamped to [0, n]. *)
Definition slice_bound (n i : Z) : Z :=
  if i <? 0 then Z.max 0 (i + n) else Z.min i n.

(** [s[i:j]] *)
Definition slice {A} (s : list A) (i j : Z) : list A :=
  let n := Z.of_nat (length s) in
  let a := slice_bound n i in
  let b := slice_bound n j in
  take (Z.to_nat (b - a)) (drop (Z.to_nat a) s).

(** The last position of [ch] in [l], if any. *)
Fixpoint last_index (ch : char) (l : str) : option nat :=
  match l with
  | [] => None
  | c :: r =>
      match last_index ch r with
      | Some p => Some (S p)
      | None => if (c =? ch)%N then Some O else None
      end
  end.

(** [s.rfind(ch, i, j)]: the highest index of [ch] inside [s[i:j]], or [-1]. *)
Definition rfind (s : str) (ch : char) (i j : Z) : Z :=
  match last_index ch (slice s i j) with
  | Some p => slice_bound (len s) i + Z.of_nat p
  | None => -1
  end.

End PyStr.

Import PyStr.

(** ** Python values, dictionaries and exceptions *)

Inductive pyval : Type :=
  | VInt (z : Z)
  | VStr (s : str).

Abbreviation Dict := (gmap str pyval).

(** An exception, by the name of its class. *)
Inductive exn : Type := Exn (cls : string).

Inductive res (A : Type) : Type :=
  | Ok (a : A)
  | Raise (e : exn).
Arguments Ok {A} a.
Arguments Raise {A} e.

Definition res_bind {A B} (r : res A) (k : A → res B) : res B :=
  match r with Ok a => k a | Raise e => Raise e end.

Definition res_map {A B} (f : A → B) (r : res A) : res B :=
  match r with Ok a => Ok (f a) | Raise e => Raise e end.

(** [l[i]] on a Python list: a negative index counts from the end, and an
    index out of range raises [IndexError]. *)
Definition py_index {A} (l : list A) (i : Z) : res A :=
  let n := Z.of_nat (length l) in
  let j := if i <? 0 then i + n else i in
  if (0 <=? j) && (j <? n) then
    match l !! Z.to_nat j with
    | Some a => Ok a
    | None => Raise (Exn "IndexError")
    end
  else Raise (Exn "IndexError").

(** ** DocumentProcessor *)

Module DocumentProcessor.

Record t : Type := mk {
  chunk_size : Z;
  chunk_overlap : Z
}.

(** [DocumentProcessor.clean_text] *)
Definition clean_text (text : str) : str :=
  (* Remove excessive whitespace *)
  let text := re_sub_class isspace 1 [SP] text in
  (* Remove excessive newlines (keep paragraph breaks) *)
  let text := re_sub_class (N.eqb LF) 3 [LF; LF] text in
  (* Remove special characters that might cause issues *)
  let text := remove_char NUL text in
  (* Strip leading/trailing whitespace *)
  strip text.

(** The end of the window that starts at [start]: [start + chunk_size],
    snapped back to just after the last sentence-ending character of the
    window when that character lies beyond the window's middle. *)
Definition window_end (self : t) (text : str) (start : Z) : Z :=
  let end_ := start + chunk_size self in
  if end_ <? len text then
    let last_period := rfind text 46%N start end_ in
    let last_exclamation := rfind text 33%N start end_ in
    let last_question := rfind text 63%N start end_ in
    let break_point :=
      Z.max (Z.max last_period last_exclamation) last_question in
    if break_point >? start + chunk_size self / 2 then break_point + 1
    else end_
  else end_.

(** A value of a metadata entry used as a bound of an integer comparison. *)
Definition as_int (v : pyval) : res Z :=
  match v with
  | VInt z => Ok z
  | VStr _ => Raise (Exn "TypeError")
  end.

(** ['char_start' in meta and 'char_end' in meta], then
    [start >= meta['char_start'] and start < meta['char_end']]. *)
Definition in_segment (start : Z) (meta : Dict) : res bool :=
  match meta !! lit "char_start", meta !! lit "char_end" with
  | Some a, Some b =>
      res_bind (as_int a) (λ a,
        if start >=? a then res_bind (as_int b) (λ b, Ok (start <? b))
        else Ok false)
  | _, _ => Ok false
  end.

(** The [for meta in metadata: ... break] scan: the first entry whose range
    holds [start]. *)
Fixpoint find_segment (start : Z) (metadata : list Dict) : res (option Dict) :=
  match metadata with
  | [] => Ok None
  | meta :: rest =>
      res_bind (in_segment start meta) (λ b,
        if b then Ok (Some meta) else find_segment start rest)
  end.

(** [{k: v for k, v in meta.items() if k not in ['char_start', 'char_end']}] *)
Definition segment_items (meta : Dict) : Dict :=
  filter (λ kv, kv.1 ∉ [lit "char_start"; lit "char_end"]) meta.

(** [d.update(other)]: the keys of [other] win. *)
Definition dict_update (d other : Dict) : Dict := other ∪ d.

Definition chunk_data (chunk_text : str) (chunk_id start end_ : Z) : Dict :=
  <[lit "chunk_size" := VInt (len chunk_text)]>
  (<[lit "char_end" := VInt end_]>
  (<[lit "char_start" := VInt start]>
  (<[lit "chunk_id" := VInt chunk_id]>
  (<[lit "text" := VStr chunk_text]> ∅)))).

(** The body of [if chunk_text:]: the chunk list and the next chunk id. *)
Definition emit_chunk (metadata : option (list Dict)) (chunk_text : str)
    (start end_ : Z) (chunks : list Dict) (chunk_id : Z)
    : res (list Dict * Z) :=
  match chunk_text with
  | [] => Ok (chunks, chunk_id)
  | _ :: _ =>
      let data := chunk_data chunk_text chunk_id start end_ in
      res_bind
        (match metadata with
         | Some ((_ :: _) as entries) =>
             res_bind (find_segment start entries) (λ found,
               match found with
               | Some meta => Ok (dict_update data (segment_items meta))
               | None => Ok data
               end)
         | _ => Ok data
         end)
        (λ data, Ok (chunks ++ [data], chunk_id + 1))
  end.

(** The [while start < text_length] loop.  [None] is a loop that has not
    returned within [fuel] iterations. *)
Fixpoint chunk_loop (self : t) (fuel : nat) (text : str)
    (metadata : option (list Dict)) (start : Z) (chunks : list Dict)
    (chunk_id : Z) : option (res (list Dict)) :=
  match fuel with
  | O => None
  | S fuel =>
      if start <? len text then
        let end_ := window_end self text start in
        let chunk_text := strip (slice text start end_) in
        match emit_chunk metadata chunk_text start end_ chunks chunk_id with
        | Raise e => Some (Raise e)
        | Ok (chunks, chunk_id) =>
            (* Move start position (with overlap) *)
            let start := end_ - chunk_overlap self in
            (* Prevent infinite loop *)
            if (start <=? 0) || (end_ >=? len text) then Some (Ok chunks)
            else chunk_loop self fuel text metadata start chunks chunk_id
        end
      else Some (Ok chunks)
  end.

(** [DocumentProcessor.create_chunks] *)
Definition create_chunks (self : t) (fuel : nat) (text : str)
    (metadata : option (list Dict)) : option (res (list Dict)) :=
  let text := clean_text text in
  chunk_loop self fuel text metadata 0 [] 0.

(** Position [i] lies in the half-open range [char_start, char_end) of the
    chunk [c]. *)
Definition in_range (c : Dict) (i : Z) : Prop :=
  ∃ a b, c !! lit "char_start" = Some (VInt a)
       ∧ c !! lit "char_end" = Some (VInt b) ∧ a <= i < b.

(** Every position of [0, n) lies in the range of some chunk. *)
Definition covers (chunks : list Dict) (n : Z) : Prop :=
  ∀ i, 0 <= i < n → ∃ c, c ∈ chunks ∧ in_range c i.

(** Every position of [text] that holds a character other than whitespace
    lies in the range of some chunk. *)
Definition covers_text (chunks : list Dict) (text : str) : Prop :=
  ∀ (i : nat) c, text !! i = Some c → isspace c = false →
    ∃ ch, ch ∈ chunks ∧ in_range ch (Z.of_nat i).

(** The same for the positions before [b] only: what the loop has covered
    when its scan stands at [b]. *)
Definition covered_upto (text : str) (chunks : list Dict) (b : Z) : Prop :=
  ∀ (i : nat) c, text !! i = Some c → isspace c = false → Z.of_nat i < b →
    ∃ ch, ch ∈ chunks ∧ in_range ch (Z.of_nat i).

(** Position [i] lies in a stretch of [n] consecutive characters of [text]
    that are all whitespace: a window of the scan that emits no chunk. *)
Definition in_blank_window (n : Z) (text : str) (i : Z) : Prop :=
  ∃ a, 0 <= a ∧ a <= i < a + n ∧ a + n <= len text
       ∧ ∀ (j : nat) c, a <= Z.of_nat j < a + n →
                        text !! j = Some c → isspace c = true.

(** Every position of [text] lies in the range of some chunk, or else in a
    stretch of [n] whitespace characters. *)
Definition covers_but_blank (chunks : list Dict) (n : Z) (text : str)
    : Prop :=
  ∀ i, 0 <= i < len text →
    (∃ c, c ∈ chunks ∧ in_range c i) ∨ in_blank_window n text i.

(** The same for the positions before [b] only: what the loop has covered
    when its scan stands at [b]. *)
Definition covered_before (n : Z) (text : str) (chunks : list Dict) (b : Z)
    : Prop :=
  ∀ i, 0 <= i < len text → i < b →
    (∃ c, c ∈ chunks ∧ in_range c i) ∨ in_blank_window n text i.

(** No entry of a segment list has a key ['text']. *)
Definition segments_keep_text (metadata : option (list Dict)) : Prop :=
  match metadata with
  | None => True
  | Some entries => Forall (λ meta : Dict, meta !! lit "text" = None) entries
  end.

(** The entries of a segment list carry integer bounds. *)
Definition segment_typed (meta : Dict) : Prop :=
  (∀ v, meta !! lit "char_start" = Some v → ∃ z, v = VInt z)
  ∧ (∀ v, meta !! lit "char_end" = Some v → ∃ z, v = VInt z).

Definition segments_typed (metadata : option (list Dict)) : Prop :=
  match metadata with
  | None => True
  | Some entries => Forall segment_typed entries
  end.

(** Text in which every whitespace character is a single space between two
    other characters or at the end. *)
Fixpoint ws_collapsed (s : str) : Prop :=
  match s with
  | [] => True
  | c :: r =>
      (isspace c = true →
         c = SP ∧ match r with [] => True | d :: _ => isspace d = false end)
      ∧ ws_collapsed r
  end.

(** A sentence-ending character: [.], [!] or [?]. *)
Definition is_terminal (c : char) : bool :=
  ((c =? 46) || (c =? 33) || (c =? 63))%N.

Definition ends_with_terminal (s : str) : bool :=
  match last s with
  | Some c => is_terminal c
  | None => false
  end.

(** [re.split(r'(?<=[.!?])\s+', text)].  A separator is a maximal run of
    whitespace whose preceding character is sentence-ending; [piece] is the
    text since the last separator and [in_sep] tells that the scan stands
    inside a separator. *)
Fixpoint re_split_sentences (in_sep : bool) (piece s : str) : list str :=
  match s with
  | [] => [piece]
  | c :: r =>
      if isspace c then
        if in_sep then re_split_sentences true piece r
        else if ends_with_terminal piece
             then piece :: re_split_sentences true [] r
             else re_split_sentences false (piece ++ [c]) r
      else re_split_sentences false (piece ++ [c]) r
  end.

(** [DocumentProcessor.split_into_sentences] *)
Definition split_into_sentences (text : str) : list str :=
  (* Simple sentence splitting *)
  let sentences := re_split_sentences false [] text in
  List.map strip
    (List.filter (λ s, match strip s with [] => false | _ => true end)
       sentences).

(** The characters that are neither whitespace nor NUL. *)
Definition visible (s : str) : str :=
  List.filter (λ c, negb (isspace c) && negb (c =? NUL)%N) s.

(** The characters that are not whitespace. *)
Definition non_space (s : str) : str :=
  List.filter (λ c, negb (isspace c)) s.

(** No entry of a segment list has one of the keys that [create_chunks]
    sets itself, apart from the two offsets. *)
Definition segments_keep_keys (metadata : option (list Dict)) : Prop :=
  match metadata with
  | None => True
  | Some entries =>
      Forall (λ meta : Dict,
                meta !! lit "text" = None ∧ meta !! lit "chunk_id" = None
                ∧ meta !! lit "chunk_size" = None) entries
  end.

(** A chunk as the loop builds it from [text]: its offsets delimit a window
    of more than half and at most [chunk_size] characters that starts
    inside the text, and its text is the stripped window, not empty, with
    its length recorded. *)
Definition well_formed_chunk (self : t) (text : str) (c : Dict) : Prop :=
  ∃ a b s,
    c !! lit "char_start" = Some (VInt a)
    ∧ c !! lit "char_end" = Some (VInt b)
    ∧ c !! lit "text" = Some (VStr s)
    ∧ c !! lit "chunk_size" = Some (VInt (len s))
    ∧ 0 <= a < len text
    ∧ chunk_size self / 2 < b - a <= chunk_size self
    ∧ s = strip (slice text a b)
    ∧ s ≠ []
    ∧ len s <= chunk_size self.

(** A dictionary that holds the offset [b] only. *)
Definition start_probe (b : Z) : Dict := {[ lit "char_start" := VInt b ]}.

(** The chunk list of a call that returned, and the empty list otherwise. *)
Definition returned (r : option (res (list Dict))) : list Dict :=
  match r with
  | Some (Ok chunks) => chunks
  | _ => []
  end.

(** The chunk ids of [chunks] count up from [n]. *)
Fixpoint ids_from (n : Z) (chunks : list Dict) : Prop :=
  match chunks with
  | [] => True
  | c :: rest => c !! lit "chunk_id" = Some (VInt n) ∧ ids_from (n + 1) rest
  end.

(** The [char_start] offsets of [chunks] grow strictly, starting above
    [a]. *)
Fixpoint starts_above (a : Z) (chunks : list Dict) : Prop :=
  match chunks with
  | [] => True
  | c :: rest =>
      ∃ b, c !! lit "char_start" = Some (VInt b) ∧ a < b
           ∧ starts_above b rest
  end.

End DocumentProcessor.

(** ** NumPy and FAISS, as far as the retrieval code uses them

    Both are libraries outside the repository.  Their behaviour is modelled
    from their documented contract; a [float32] is an exact rational, so
    rounding is left out. *)

Module Numpy.

Definition vec : Type := list Q.

(** The result of [np.array(rows, dtype='float32')]. *)
Record ndarray : Type := mk_array {
  shape : list Z;
  rows : list vec
}.

(** [np.array] of a list of rows: the empty list gives a one-dimensional
    array of shape [(0,)], rows of one length [d] give shape [(n, d)], and
    rows of different lengths are refused. *)
Definition array (embeddings : list vec) : res ndarray :=
  match embeddings with
  | [] => Ok (mk_array [0] [])
  | v :: _ =>
      if forallb (λ w, (length w =? length v)%nat) embeddings
      then Ok (mk_array [Z.of_nat (length embeddings); Z.of_nat (length v)]
                        embeddings)
      else Raise (Exn "ValueError")
  end.

(** [a.shape[i]] *)
Definition shape_at (a : ndarray) (i : Z) : res Z := py_index (shape a) i.

(** [np.random.choice(a, size, replace=False)] for an integer [a]:
    [permutation(a)[:size]], where [rng a] is the permutation drawn. *)
Definition random_choice (rng : nat → list nat) (a size : nat)
    : res (list nat) :=
  if (a =? 0)%nat && negb (size =? 0)%nat then Raise (Exn "ValueError")
  else if (a <? size)%nat then Raise (Exn "ValueError")
  else Ok (take size (rng a)).

End Numpy.

Module Faiss.
Import Numpy.

(** [faiss.IndexFlatL2]: the dimension and the stored vectors, in insertion
    order; [ntotal] is their number. *)
Record IndexFlatL2 : Type := mk_index {
  d : Z;
  xb : list vec
}.

Definition ntotal (index : IndexFlatL2) : Z := Z.of_nat (length (xb index)).

(** [index.add(x)] *)
Definition add (index : IndexFlatL2) (x : ndarray) : res IndexFlatL2 :=
  match shape x with
  | [_; dx] =>
      if dx =? d index then Ok (mk_index (d index) (xb index ++ rows x))
      else Raise (Exn "AssertionError")
  | _ => Raise (Exn "ValueError")
  end.

(** Squared Euclidean distance. *)
Definition l2sqr (x y : vec) : Q :=
  foldr Qplus 0%Q
    (zip_with (λ a b, Qmult (Qminus a b) (Qminus a b)) x y).

(** The distance reported in a result slot that holds no vector. *)
Definition FLT_MAX : Q := 340282346638528859811704183484516925440%Q.

(** Insertion into a list sorted by distance; an equal distance keeps the
    lower label first. *)
Fixpoint insert_by_distance (x : Z * Q) (l : list (Z * Q)) : list (Z * Q) :=
  match l with
  | [] => [x]
  | y :: r =>
      if negb (Qle_bool x.2 y.2) then y :: insert_by_distance x r
      else x :: y :: r
  end.

(** The [k] result slots of one query: the nearest vectors by ascending
    distance and, when the index holds fewer than [k] vectors, slots with
    label [-1] after them. *)
Definition knn (index : IndexFlatL2) (q : vec) (k : nat) : list (Z * Q) :=
  let scored := imap (λ i x, (Z.of_nat i, l2sqr q x)) (xb index) in
  let found := take k (foldr insert_by_distance [] scored) in
  found ++ replicate (k - length found) (-1, FLT_MAX).

(** [index.search(x, k)]: the pair [(distances, labels)], one row per
    query. *)
Definition search (index : IndexFlatL2) (x : ndarray) (k : Z)
    : res (list (list Q) * list (list Z)) :=
  match shape x with
  | [_; dx] =>
      if negb (dx =? d index) then Raise (Exn "AssertionError")
      else if k <=? 0 then Raise (Exn "AssertionError")
      else
        let found := List.map (λ q, knn index q (Z.to_nat k)) (rows x) in
        Ok (List.map (List.map snd) found, List.map (List.map fst) found)
  | _ => Raise (Exn "ValueError")
  end.

End Faiss.

(** ** RAGSystem *)

Module RAGSystem.
Import Numpy Faiss.

(** A chat message, [{"role": ..., "content": ...}]. *)
Record message : Type := mk_message {
  role : str;
  content : str
}.

(** The Azure OpenAI client: what [client.embeddings.create] hands back as
    [[item.embedding for item in response.data]], and what
    [client.chat.completions.create] hands back as
    [response.choices[0].message.content].  Either call may raise. *)
Record AzureOpenAI : Type := mk_client {
  embeddings_create : list str → str → res (list vec);
  chat_completions_create : str → list message → Q → Z → res str
}.

(** A request sent to the backend. *)
Inductive call : Type :=
  | EmbeddingsCreate (input : list str) (model : str)
  | ChatCompletionsCreate (model : str) (messages : list message)
      (temperature : Q) (max_tokens : Z).

(** The fields of a [RAGSystem] object. *)
Record t : Type := mk {
  client : AzureOpenAI;
  deployment_name : str;
  embedding_model : str;
  index : option IndexFlatL2;
  chunks : list str;
  metadata : list Dict
}.

(** The object together with the requests sent so far. *)
Record world : Type := mk_world {
  self : t;
  calls : list call
}.

(** A method: it may assign fields and send requests before it returns or
    raises. *)
Definition M (A : Type) : Type := world → world * res A.

Definition ret {A} (a : A) : M A := λ w, (w, Ok a).
Definition raise {A} (e : exn) : M A := λ w, (w, Raise e).
Definition bind {A B} (m : M A) (k : A → M B) : M B :=
  λ w, match m w with
       | (w', Ok a) => k a w'
       | (w', Raise e) => (w', Raise e)
       end.
Definition lift {A} (r : res A) : M A := λ w, (w, r).
Definition get : M t := λ w, (w, Ok (self w)).
Definition put (s : t) : M unit := λ w, (mk_world s (calls w), Ok tt).
Definition send (c : call) : M unit :=
  λ w, (mk_world (self w) (calls w ++ [c]), Ok tt).

Notation "x <- c ;; k" := (bind c (λ x, k))
  (at level 100, c at next level, right associativity).
Notation "c ;;; k" := (bind c (λ _, k))
  (at level 100, right associativity).

(** Assignments to [self.index], [self.chunks] and [self.metadata]. *)
Definition with_index (s : t) (i : option IndexFlatL2) : t :=
  mk (client s) (deployment_name s) (embedding_model s) i (chunks s)
     (metadata s).
Definition with_chunks (s : t) (c : list str) : t :=
  mk (client s) (deployment_name s) (embedding_model s) (index s) c
     (metadata s).
Definition with_metadata (s : t) (m : list Dict) : t :=
  mk (client s) (deployment_name s) (embedding_model s) (index s) (chunks s)
     m.

Definition set_index (i : option IndexFlatL2) : M unit :=
  s <- get ;; put (with_index s i).
Definition set_chunks (c : list str) : M unit :=
  s <- get ;; put (with_chunks s c).
Definition set_metadata (m : list Dict) : M unit :=
  s <- get ;; put (with_metadata s m).

(** [RAGSystem.__init__] *)
Definition init (azure_client : AzureOpenAI)
    (azure_deployment_name embedding_model : str) : t :=
  mk azure_client azure_deployment_name embedding_model None [] [].

(** [range(0, stop, step)] *)
Definition range_step (stop step : nat) : list nat :=
  List.map (λ j, j * step)%nat (seq 0 (Nat.div (stop + step - 1) step)).

(** One request to [client.embeddings.create]. *)
Definition embeddings_request (batch : list str) : M (list vec) :=
  s <- get ;;
  send (EmbeddingsCreate batch (embedding_model s)) ;;;
  lift (embeddings_create (client s) batch (embedding_model s)).

(** The [for i in range(0, len(texts), batch_size)] loop. *)
Fixpoint embed_batches (offsets : list nat) (texts : list str)
    (embeddings : list vec) : M (list vec) :=
  match offsets with
  | [] => ret embeddings
  | i :: rest =>
      let batch := slice texts (Z.of_nat i) (Z.of_nat i + 100) in
      batch_embeddings <- embeddings_request batch ;;
      embed_batches rest texts (embeddings ++ batch_embeddings)
  end.

(** [RAGSystem.create_embeddings] *)
Definition create_embeddings (texts : list str) : M ndarray :=
  let batch_size := 100%nat in
  embeddings <- embed_batches (range_step (length texts) batch_size) texts [] ;;
  lift (Numpy.array embeddings).

(** [[{"index": i} for i in range(len(chunks))]] *)
Definition default_metadata (chunks : list str) : list Dict :=
  List.map (λ i, {[ lit "index" := VInt (Z.of_nat i) ]}) (seq 0 (length chunks)).

(** [RAGSystem.create_index] *)
Definition create_index (chunks : list str) (metadata : option (list Dict))
    : M IndexFlatL2 :=
  set_chunks chunks ;;;
  set_metadata (match metadata with
                | Some ((_ :: _) as m) => m
                | _ => default_metadata chunks
                end) ;;;
  (* Create embeddings *)
  embeddings <- create_embeddings chunks ;;
  (* Create FAISS index *)
  dimension <- lift (shape_at embeddings 1) ;;
  set_index (Some (mk_index dimension [])) ;;;
  added <- lift (add (mk_index dimension []) embeddings) ;;
  set_index (Some added) ;;;
  ret added.

(** The pickle of a dict, as [load_index] looks at it: the values under
    the keys ['chunks'] and ['metadata'], where the dict has them. *)
Record pickled : Type := mk_pickled {
  pickled_chunks : option (list str);
  pickled_metadata : option (list Dict)
}.

(** What a path of the disk holds:
    - [FaissFile]: an index, as [faiss.write_index] writes it;
    - [PickleFile]: the pickle of a dict;
    - [PlainFile]: the pickle of a list, a tuple, a string, a number or
      None;
    - [ObjectFile]: the pickle of any other object that a string does not
      subscript: [data['chunks']] raises [getitem_error];
    - [EmptyFile]: a file of zero bytes;
    - [OtherFile]: other bytes (a truncated file, a foreign format) or a
      path that cannot be opened for reading: [faiss.read_index] raises
      [read_error], and [open] or [pickle.load] raises [load_error]. *)
Inductive file : Type :=
  | FaissFile (index : IndexFlatL2)
  | PickleFile (data : pickled)
  | PlainFile
  | ObjectFile (getitem_error : exn)
  | EmptyFile
  | OtherFile (read_error load_error : exn).

(** What the disk [fs] holds at [path], if anything. *)
Definition file_at (fs : gmap str file) (path : str) : option file :=
  fs !! path.

(** [faiss.read_index(path)]: FAISS reports a path it cannot open, a file
    too short to hold the tag of an index type, and a file that starts with
    anything else than such a tag, as a RuntimeError. *)
Definition read_index (fs : gmap str file) (path : str) : res IndexFlatL2 :=
  match file_at fs path with
  | Some (FaissFile index) => Ok index
  | Some (OtherFile read_error _) => Raise read_error
  | Some (PickleFile _) | Some PlainFile | Some (ObjectFile _)
  | Some EmptyFile | None =>
      Raise (Exn "RuntimeError")
  end.

(** What [pickle.load] returns. *)
Inductive unpickled : Type :=
  | PickledDict (data : pickled)
  | PickledPlain
  | PickledObject (getitem_error : exn).

(** [with open(path, 'rb') as f: data = pickle.load(f)].  What
    [pickle.load] raises on the bytes of a FAISS index depends on the bytes;
    [unpickle_index] gives it. *)
Definition pickle_load (unpickle_index : IndexFlatL2 → exn)
    (fs : gmap str file) (path : str) : res unpickled :=
  match file_at fs path with
  | None => Raise (Exn "FileNotFoundError")
  | Some (PickleFile data) => Ok (PickledDict data)
  | Some PlainFile => Ok PickledPlain
  | Some (ObjectFile getitem_error) => Ok (PickledObject getitem_error)
  | Some EmptyFile => Raise (Exn "EOFError")
  | Some (OtherFile _ load_error) => Raise load_error
  | Some (FaissFile index) => Raise (unpickle_index index)
  end.

(** [data[key]] for a string [key] *)
Definition getitem {A} (data : unpickled) (key : pickled → option A)
    : res A :=
  match data with
  | PickledDict d =>
      match key d with
      | Some a => Ok a
      | None => Raise (Exn "KeyError")
      end
  | PickledPlain => Raise (Exn "TypeError")
  | PickledObject getitem_error => Raise getitem_error
  end.

(** [RAGSystem.load_index] *)
Definition load_index (unpickle_index : IndexFlatL2 → exn)
    (fs : gmap str file) (index_path : str) : M unit :=
  (* Load FAISS index *)
  loaded <- lift (read_index fs (index_path ++ lit ".faiss")) ;;
  set_index (Some loaded) ;;;
  (* Load chunks and metadata *)
  data <- lift (pickle_load unpickle_index fs (index_path ++ lit ".pkl")) ;;
  c <- lift (getitem data pickled_chunks) ;;
  set_chunks c ;;;
  m <- lift (getitem data pickled_metadata) ;;
  set_metadata m.

(** The [for idx, distance in zip(indices[0], distances[0])] loop of
    [search]. *)
Fixpoint collect_results (chunks : list str) (metadata : list Dict)
    (pairs : list (Z * Q)) (results : list (str * Dict * Q))
    : res (list (str * Dict * Q)) :=
  match pairs with
  | [] => Ok results
  | (idx, distance) :: rest =>
      if idx <? len chunks then  (* Valid index *)
        res_bind (py_index chunks idx) (λ c,
        res_bind (py_index metadata idx) (λ m,
          collect_results chunks metadata rest (results ++ [(c, m, distance)])))
      else collect_results chunks metadata rest results
  end.

(** [RAGSystem.search] *)
Definition search (query : str) (k : Z) : M (list (str * Dict * Q)) :=
  s <- get ;;
  match index s with
  | None => raise (Exn "ValueError")
  | Some idx =>
      (* Create query embedding *)
      query_embedding <- create_embeddings [query] ;;
      (* Search *)
      found <- lift (Faiss.search idx query_embedding k) ;;
      let '(distances, indices) := found in
      indices0 <- lift (py_index indices 0) ;;
      distances0 <- lift (py_index distances 0) ;;
      (* Return results *)
      lift (collect_results (chunks s) (metadata s)
              (zip indices0 distances0) [])
  end.

(** [sep.join(parts)] *)
Fixpoint join (sep : str) (parts : list str) : str :=
  match parts with
  | [] => []
  | [p] => p
  | p :: rest => p ++ sep ++ join sep rest
  end.

(** [str(n)] for an integer. *)
Definition str_of_int (n : Z) : str :=
  lit (NilZero.string_of_int (Z.to_int n)).

(** [[self.chunks[i] for i in sample_indices]] *)
Fixpoint pick (chunks : list str) (sample_indices : list nat)
    : res (list str) :=
  match sample_indices with
  | [] => Ok []
  | i :: rest =>
      res_bind (py_index chunks (Z.of_nat i)) (λ c,
      res_bind (pick chunks rest) (λ cs, Ok (c :: cs)))
  end.

(** The sampling shared by the two generators: at most ten chunks, drawn
    without replacement. *)
Definition sample_chunks (rng : nat → list nat) (chunks : list str)
    : res (list str) :=
  let num_chunks := Nat.min 10 (length chunks) in
  res_bind (random_choice rng (length chunks) num_chunks) (pick chunks).

(** [f" focusing on {topic}" if topic else ""] *)
Definition topic_text (topic : option str) : str :=
  match topic with
  | Some ((_ :: _) as topic) => lit " focusing on " ++ topic
  | _ => []
  end.

Definition quiz_prompt (num_questions : Z) (difficulty : str)
    (topic : option str) (context : str) : str :=
  lit "Based on the following content, generate " ++ str_of_int num_questions
  ++ lit " multiple-choice questions at a " ++ difficulty
  ++ lit " difficulty level" ++ topic_text topic ++ lit ".

Content:
" ++ context ++ lit "

For each question, provide:
1. The question text
2. Four answer options (A, B, C, D)
3. The correct answer (letter)
4. A brief explanation of why it's correct

Format your response as a JSON array of objects with keys: question, option_a, option_b, option_c, option_d, correct_answer, explanation".

Definition flashcard_prompt (num_cards : Z) (topic : option str)
    (context : str) : str :=
  lit "Based on the following content, generate " ++ str_of_int num_cards
  ++ lit " flashcards" ++ topic_text topic ++ lit ".

Content:
" ++ context ++ lit "

For each flashcard, provide:
- Front: A question, term, or concept
- Back: The answer, definition, or explanation

Format your response as a JSON array of objects with keys: front, back".

(** One request to [client.chat.completions.create]. *)
Definition chat_request (messages : list message) (temperature : Q)
    (max_tokens : Z) : M str :=
  s <- get ;;
  send (ChatCompletionsCreate (deployment_name s) messages temperature
          max_tokens) ;;;
  lift (chat_completions_create (client s) (deployment_name s) messages
          temperature max_tokens).

(** What a generator hands back to its caller: the text of the backend, or
    parsed records. *)
Inductive generated : Type :=
  | Text (content : str)
  | Records (records : list Dict).

Definition quiz_messages (prompt : str) : list message :=
  [ mk_message (lit "system")
      (lit "You are an educational quiz generator. Create clear, accurate questions.");
    mk_message (lit "user") prompt ].

Definition flashcard_messages (prompt : str) : list message :=
  [ mk_message (lit "system")
      (lit "You are an educational flashcard generator. Create clear, concise cards.");
    mk_message (lit "user") prompt ].

(** [RAGSystem.generate_quiz_questions] *)
Definition generate_quiz_questions (rng : nat → list nat) (num_questions : Z)
    (difficulty : str) (topic : option str) : M generated :=
  s <- get ;;
  (* Sample chunks for quiz generation *)
  sampled <- lift (sample_chunks rng (chunks s)) ;;
  let context := join [LF; LF] sampled in
  let prompt := quiz_prompt num_questions difficulty topic context in
  response <- chat_request (quiz_messages prompt) (8 # 10)%Q 2000 ;;
  ret (Text response).

(** [RAGSystem.generate_flashcards] *)
Definition generate_flashcards (rng : nat → list nat) (num_cards : Z)
    (topic : option str) : M generated :=
  s <- get ;;
  (* Sample chunks for flashcard generation *)
  sampled <- lift (sample_chunks rng (chunks s)) ;;
  let context := join [LF; LF] sampled in
  let prompt := flashcard_prompt num_cards topic context in
  response <- chat_request (flashcard_messages prompt) (7 # 10)%Q 2000 ;;
  ret (Text response).

(** The request of [generate_quiz_questions] over the context [sampled]. *)
Definition quiz_request (num_questions : Z) (difficulty : str)
    (topic : option str) (sampled : list str) : list message :=
  quiz_messages
    (quiz_prompt num_questions difficulty topic (join [LF; LF] sampled)).

(** The request of [generate_flashcards] over the context [sampled]. *)
Definition flashcard_request (num_cards : Z) (topic : option str)
    (sampled : list str) : list message :=
  flashcard_messages
    (flashcard_prompt num_cards topic (join [LF; LF] sampled)).

(** [s.lstrip(ch)] for a single character [ch]. *)
Fixpoint lstrip_char (ch : char) (s : str) : str :=
  match s with
  | [] => []
  | c :: r => if (c =? ch)%N then lstrip_char ch r else s
  end.

(** [s.rstrip(ch)] for a single character [ch]. *)
Definition rstrip_char (ch : char) (s : str) : str :=
  rev (lstrip_char ch (rev s)).

(** [os.path.dirname(p)] of [posixpath]: the part before the last slash,
    without trailing slashes unless it consists of slashes only. *)
Definition dirname (p : str) : str :=
  let i := rfind p 47%N 0 (len p) + 1 in
  let head := slice p 0 i in
  match head with
  | [] => head
  | _ :: _ =>
      if forallb (N.eqb 47%N) head then head else rstrip_char 47%N head
  end.

(** [os.makedirs(name, exist_ok=True)] on a disk with room and permissions,
    where a directory exists as soon as it is made: only the empty name is
    refused. *)
Definition makedirs (name : str) : res unit :=
  match name with
  | [] => Raise (Exn "FileNotFoundError")
  | _ :: _ => Ok tt
  end.

(** [RAGSystem.save_index]; the result is the disk after the two writes. *)
Definition save_index (fs : gmap str file) (index_path : str)
    : M (gmap str file) :=
  s <- get ;;
  match index s with
  | None => raise (Exn "ValueError")
  | Some idx =>
      (* Create directory if it doesn't exist *)
      lift (makedirs (dirname index_path)) ;;;
      (* Save FAISS index *)
      let fs : gmap str file :=
        <[index_path ++ lit ".faiss" := FaissFile idx]> fs in
      (* Save chunks and metadata *)
      let fs : gmap str file :=
        <[index_path ++ lit ".pkl" :=
            PickleFile (mk_pickled (Some (chunks s)) (Some (metadata s)))]> fs in
      ret fs
  end.

(** [f"[Context {i+1}]\n{chunk}"] *)
Definition context_block (i : nat) (chunk : str) : str :=
  lit "[Context " ++ str_of_int (Z.of_nat i + 1) ++ lit "]" ++ [LF] ++ chunk.

Definition default_system_prompt : str :=
  lit "You are a helpful AI study assistant. Answer questions based on the provided context from the user's documents. "
  ++ [LF]
  ++ lit "If the context doesn't contain enough information to answer the question, say so clearly. "
  ++ [LF]
  ++ lit "Be concise, accurate, and educational in your responses.".

Definition user_message (context query : str) : str :=
  lit "Context from your documents:" ++ [LF] ++ context ++ [LF; LF]
  ++ lit "Question: " ++ query ++ [LF; LF]
  ++ lit "Please answer based on the context above.".

(** The message list of [generate_response]. *)
Definition response_messages (query : str) (context_chunks : list str)
    (chat_history : option (list message)) (system_prompt : option str)
    : list message :=
  (* Build context from chunks *)
  let context := join [LF; LF] (imap context_block context_chunks) in
  (* Default system prompt *)
  let system_prompt :=
    match system_prompt with
    | None => default_system_prompt
    | Some p => p
    end in
  (* Build messages *)
  let messages := [mk_message (lit "system") system_prompt] in
  (* Add chat history if provided *)
  let messages :=
    match chat_history with
    | Some ((_ :: _) as history) => messages ++ history
    | _ => messages
    end in
  (* Add current query with context *)
  messages ++ [mk_message (lit "user") (user_message context query)].

(** [RAGSystem.generate_response] *)
Definition generate_response (query : str) (context_chunks : list str)
    (chat_history : option (list message)) (system_prompt : option str)
    (temperature : Q) (max_tokens : Z) : M str :=
  chat_request
    (response_messages query context_chunks chat_history system_prompt)
    temperature max_tokens.

(** One entry of the sources that [chat] returns,
    [{"text": ..., "metadata": ..., "distance": ...}]. *)
Record source : Type := mk_source {
  source_text : str;
  source_metadata : Dict;
  source_distance : Q
}.

Definition to_source (result : str * Dict * Q) : source :=
  let '(chunk_text, metadata, distance) := result in
  mk_source chunk_text metadata distance.

(** [RAGSystem.chat] *)
Definition chat (query : str) (k : Z) (chat_history : option (list message))
    (temperature : Q) : M (str * list source) :=
  (* Search for relevant chunks *)
  search_results <- search query k ;;
  (* Extract chunks and metadata *)
  let context_chunks := List.map (λ result, result.1.1) search_results in
  let sources := List.map to_source search_results in
  (* Generate response *)
  response <- generate_response query context_chunks chat_history None
                temperature 1000 ;;
  ret (response, sources).

(** [range(0, stop, step)] with a step that Python refuses when it is 0. *)
Definition py_range_step (stop step : nat) : res (list nat) :=
  if (step =? 0)%nat then Raise (Exn "ValueError")
  else Ok (range_step stop step).

(** The chunks that [summarize_document] reads: every [step]-th one. *)
Definition summary_sample (chunks : list str) : res (list str) :=
  let num_chunks := Nat.min 20 (length chunks) in
  let step :=
    if (0 <? num_chunks)%nat then Nat.div (length chunks) num_chunks
    else 1%nat in
  res_bind (py_range_step (length chunks) step) (pick chunks).

Definition summary_prompt (max_length : Z) (context : str) : str :=
  lit "Please provide a comprehensive summary of the following document in approximately "
  ++ str_of_int max_length ++ lit " words. " ++ [LF]
  ++ lit "Cover the main topics, key concepts, and important points."
  ++ [LF; LF] ++ lit "Document content:" ++ [LF] ++ context.

Definition summary_messages (prompt : str) : list message :=
  [ mk_message (lit "system") (lit "You are a document summarization expert.");
    mk_message (lit "user") prompt ].

(** [RAGSystem.summarize_document] *)
Definition summarize_document (max_length : Z) : M str :=
  s <- get ;;
  (* Sample chunks across the document *)
  sampled <- lift (summary_sample (chunks s)) ;;
  let context := join [LF; LF] sampled in
  let prompt := summary_prompt max_length context in
  chat_request (summary_messages prompt) (5 # 10)%Q (max_length * 2).

(** The batches that [create_embeddings] cuts [texts] into:
    [texts[i:i + 100]] for [i] in [range(0, len(texts), 100)]. *)
Definition batches (texts : list str) : list (list str) :=
  List.map (λ i, slice texts (Z.of_nat i) (Z.of_nat i + 100))
    (range_step (length texts) 100).

(** A method that assigns no field of the object. *)
Definition read_only {A} (m : M A) : Prop := ∀ w, self (m w).1 = self w.

End RAGSystem.

(** ** DocumentProcessor: extraction and the processing pipeline

    The readers of the file formats (python-docx, PyPDF2, pdfminer) are
    libraries outside the repository; a reader is a function from the path
    to what it reads, or to the exception it raises, and [None] is a
    library that is not installed. *)

Module Extraction.
Import DocumentProcessor.

Definition paragraph_sep : str := [LF; LF].

(** [{'paragraph': i + 1, 'char_start': len('\n\n'.join(text_parts[:-1])),
      'char_end': len('\n\n'.join(text_parts))}] *)
Definition docx_segment (i : Z) (text_parts : list str) : Dict :=
  <[lit "char_end" := VInt (len (RAGSystem.join paragraph_sep text_parts))]>
  (<[lit "char_start" :=
       VInt (len (RAGSystem.join paragraph_sep (slice text_parts 0 (-1))))]>
  (<[lit "paragraph" := VInt (i + 1)]> ∅)).

(** The [for i, paragraph in enumerate(doc.paragraphs)] loop. *)
Fixpoint docx_loop (paragraphs : list str) (i : Z) (text_parts : list str)
    (para_metadata : list Dict) : list str * list Dict :=
  match paragraphs with
  | [] => (text_parts, para_metadata)
  | paragraph :: rest =>
      match strip paragraph with
      | [] => docx_loop rest (i + 1) text_parts para_metadata
      | (_ :: _) as text =>
          let text_parts := text_parts ++ [text] in
          docx_loop rest (i + 1) text_parts
            (para_metadata ++ [docx_segment i text_parts])
      end
  end.

(** [DocumentProcessor.extract_text_from_docx] *)
Definition extract_text_from_docx
    (DocxDocument : option (str → res (list str))) (file_path : str)
    : res (str * list Dict) :=
  match DocxDocument with
  | None => Raise (Exn "ImportError")
  | Some open_document =>
      match open_document file_path with
      | Ok paragraphs =>
          let '(text_parts, para_metadata) := docx_loop paragraphs 0 [] [] in
          Ok (RAGSystem.join paragraph_sep text_parts, para_metadata)
      | Raise _ => Raise (Exn "Exception")
      end
  end.

(** [{'page': page_num + 1, 'total_pages': num_pages,
      'char_start': len(''.join(text_parts[:-1])),
      'char_end': len(''.join(text_parts))}] *)
Definition pdf_segment (page_num num_pages : Z) (text_parts : list str)
    : Dict :=
  <[lit "char_end" := VInt (len (RAGSystem.join [] text_parts))]>
  (<[lit "char_start" :=
       VInt (len (RAGSystem.join [] (slice text_parts 0 (-1))))]>
  (<[lit "total_pages" := VInt num_pages]>
  (<[lit "page" := VInt (page_num + 1)]> ∅))).

(** The [for page_num in range(num_pages)] loop; a page whose
    [extract_text()] raises stops it. *)
Fixpoint pdf_loop (pages : list (res str)) (page_num num_pages : Z)
    (text_parts : list str) (page_metadata : list Dict)
    : res (list str * list Dict) :=
  match pages with
  | [] => Ok (text_parts, page_metadata)
  | Raise e :: _ => Raise e
  | Ok text :: rest =>
      match strip text with
      | [] => pdf_loop rest (page_num + 1) num_pages text_parts page_metadata
      | _ :: _ =>
          let text_parts := text_parts ++ [text] in
          pdf_loop rest (page_num + 1) num_pages text_parts
            (page_metadata ++ [pdf_segment page_num num_pages text_parts])
      end
  end.

(** [[{'page': 1, 'total_pages': 1, 'char_start': 0, 'char_end': len(text)}]] *)
Definition pdfminer_segment (text : str) : Dict :=
  <[lit "char_end" := VInt (len text)]>
  (<[lit "char_start" := VInt 0]>
  (<[lit "total_pages" := VInt 1]>
  (<[lit "page" := VInt 1]> ∅))).

(** [DocumentProcessor.extract_text_from_pdf] *)
Definition extract_text_from_pdf
    (PyPDF2 : option (str → res (list (res str))))
    (pdfminer_extract_text : option (str → res str)) (file_path : str)
    : res (str * list Dict) :=
  match PyPDF2 with
  | None => Raise (Exn "ImportError")
  | Some read_pages =>
      (* Try PyPDF2 first *)
      match res_bind (read_pages file_path) (λ pages,
              pdf_loop pages 0 (len pages) [] []) with
      | Ok (text_parts, page_metadata) =>
          Ok (RAGSystem.join paragraph_sep text_parts, page_metadata)
      | Raise _ =>
          match pdfminer_extract_text with
          | Some extract =>
              (* Fallback to pdfminer if PyPDF2 fails *)
              match extract file_path with
              | Ok text =>
                  Ok (RAGSystem.join paragraph_sep [text],
                      [pdfminer_segment text])
              | Raise _ => Raise (Exn "Exception")
              end
          | None => Raise (Exn "Exception")
          end
      end
  end.

(** The statistics that [process_document] returns. *)
Record stats : Type := mk_stats {
  total_characters : Z;
  total_chunks : Z;
  avg_chunk_size : Q;
  file_format : str;
  source_segments : Z
}.

(** [chunk['text']] *)
Definition chunk_text_of (chunk : Dict) : res pyval :=
  match chunk !! lit "text" with
  | Some v => Ok v
  | None => Raise (Exn "KeyError")
  end.

(** [len(c)] of a dictionary value. *)
Definition value_len (v : pyval) : res Z :=
  match v with
  | VStr s => Ok (len s)
  | VInt _ => Raise (Exn "TypeError")
  end.

Fixpoint res_mapM {A B} (f : A → res B) (l : list A) : res (list B) :=
  match l with
  | [] => Ok []
  | a :: rest =>
      res_bind (f a) (λ b, res_bind (res_mapM f rest) (λ bs, Ok (b :: bs)))
  end.

(** [sum(len(c) for c in chunk_texts) / len(chunk_texts) if chunks else 0] *)
Definition average_size (chunk_texts : list pyval) : res Q :=
  match chunk_texts with
  | [] => Ok 0%Q
  | _ :: _ =>
      res_bind (res_mapM value_len chunk_texts) (λ sizes,
        Ok (Qdiv (inject_Z (foldr Z.add 0 sizes))
                 (inject_Z (len chunk_texts))))
  end.

(** [DocumentProcessor.process_document], over the extractor
    [self.extract_text] and [Path(file_path).suffix.lower()]. *)
Definition process_document (self : t) (fuel : nat)
    (extract_text : str → res (str * list Dict)) (suffix_lower : str → str)
    (file_path : str) : option (res (list pyval * list Dict * stats)) :=
  (* Extract text *)
  match extract_text file_path with
  | Raise e => Some (Raise e)
  | Ok (full_text, source_metadata) =>
      (* Create chunks *)
      match create_chunks self fuel full_text (Some source_metadata) with
      | None => None
      | Some (Raise e) => Some (Raise e)
      | Some (Ok chunks) =>
          Some (
            (* Separate text and metadata *)
            res_bind (res_mapM chunk_text_of chunks) (λ chunk_texts,
            let chunk_metadata :=
              List.map (λ chunk : Dict, delete (lit "text") chunk) chunks in
            (* Calculate statistics *)
            res_bind (average_size chunk_texts) (λ avg,
            Ok (chunk_texts, chunk_metadata,
                mk_stats (len full_text) (len chunks) avg
                         (suffix_lower file_path) (len source_metadata)))))
      end
  end.

(** A text with a character that is not whitespace. *)
Definition nonblank (s : str) : bool :=
  match strip s with [] => false | _ :: _ => true end.

(** The offsets of [segments] follow one another from [a] to [n]: each
    segment starts where the one before ends, and none is empty. *)
Fixpoint chained (a : Z) (segments : list Dict) (n : Z) : Prop :=
  match segments with
  | [] => a = n
  | seg :: rest =>
      ∃ b, seg !! lit "char_start" = Some (VInt a)
           ∧ seg !! lit "char_end" = Some (VInt b) ∧ a < b
           ∧ chained b rest n
  end.

End Extraction.

(** ** Sample objects *)

Module Demo.
Import Numpy Faiss RAGSystem.

(** A backend that embeds every text as the one-dimensional vector [0] and
    answers every chat request with the same sentence. *)
Definition demo_client : AzureOpenAI :=
  mk_client (λ batch _, Ok (List.map (λ _, [0%Q]) batch))
            (λ _ _ _ _, Ok (lit "Sorry, I cannot help with that.")).

(** An object whose index holds the vectors [0] and [1] of the chunks [a]
    and [b]. *)
Definition demo_built : world :=
  mk_world
    (mk demo_client (lit "gpt") (lit "ada")
        (Some (mk_index 1 [[0%Q]; [1%Q]]))
        [lit "a"; lit "b"] (default_metadata [lit "a"; lit "b"]))
    [].

(** A fresh object. *)
Definition demo_fresh : world :=
  mk_world (init demo_client (lit "gpt") (lit "ada")) [].

End Demo.

(** * Properties *)

(** ** Facts about the string primitives *)

Section StringFacts.

Lemma flush_run_one (run : str) :
  flush_run 1 [SP] run = [] ∨ flush_run 1 [SP] run = [SP].
Proof.
  unfold flush_run. destruct run as [|c r]; simpl; [left | right]; reflexivity.
Qed.

(** Collapsing whitespace runs leaves text in which every whitespace
    character is a lone space. *)
Lemma re_sub_ws_collapsed (s run : str) :
  DocumentProcessor.ws_collapsed (re_sub_run isspace 1 [SP] run s).
Proof.
  revert run. induction s as [|c r IH]; intros run; simpl.
  - destruct (flush_run_one run) as [-> | ->]; simpl; auto.
  - destruct (isspace c) eqn:Hc; [apply IH |].
    destruct (flush_run_one run) as [-> | ->]; simpl.
    + split; [congruence | apply IH].
    + split; [auto |]. split; [congruence | apply IH].
Qed.


(** A substitution whose class occurs nowhere in the text is the identity. *)
Lemma re_sub_class_absent (cls : char → bool) (m : nat) (repl s : str) :
  (0 < m)%nat → Forall (λ c, cls c = false) s → re_sub_class cls m repl s = s.
Proof.
  intros Hm. unfold re_sub_class.
  induction 1 as [|c r Hc _ IH]; simpl.
  - unfold flush_run. simpl. destruct m; [lia | reflexivity].
  - rewrite Hc. unfold flush_run at 1. simpl.
    destruct m; [lia |]. simpl. by rewrite IH.
Qed.

Lemma ws_collapsed_Forall (s : str) :
  DocumentProcessor.ws_collapsed s → Forall (λ c, isspace c = true → c = SP) s.
Proof.
  induction s as [|c r IH]; simpl; [constructor |].
  intros [Hc Hr]. constructor; [| by apply IH].
  intros H. by destruct (Hc H).
Qed.

Lemma ws_collapsed_tail (c : char) (s : str) :
  DocumentProcessor.ws_collapsed (c :: s) → DocumentProcessor.ws_collapsed s.
Proof. simpl. tauto. Qed.

Lemma ws_collapsed_app_l (s t : str) :
  DocumentProcessor.ws_collapsed (s ++ t) → DocumentProcessor.ws_collapsed s.
Proof.
  induction s as [|c r IH]; simpl; [auto |].
  intros [Hc Hr]. split; [| by apply IH].
  intros H. destruct (Hc H) as [-> Hn]. split; [reflexivity |].
  destruct r; simpl in *; auto.
Qed.

(** [lstrip] keeps a suffix, [rstrip] a prefix. *)
Lemma lstrip_suffix (s : str) : ∃ a, s = a ++ lstrip s ∧ Forall (λ c, isspace c = true) a.
Proof.
  induction s as [|c r [a [IH Ha]]]; simpl.
  - by exists [].
  - destruct (isspace c) eqn:Hc.
    + exists (c :: a). split; [simpl; congruence | by constructor].
    + by exists [].
Qed.

Lemma rstrip_prefix (s : str) : ∃ a, s = rstrip s ++ a ∧ Forall (λ c, isspace c = true) a.
Proof.
  unfold rstrip. destruct (lstrip_suffix (rev s)) as [a [Ha Hws]].
  exists (rev a). split.
  - rewrite <- rev_app_distr, <- Ha. symmetry. apply rev_involutive.
  - apply Forall_forall. intros x Hx. rewrite Forall_forall in Hws.
    apply Hws. apply list_elem_of_In. apply in_rev. by apply list_elem_of_In.
Qed.

Lemma lstrip_Forall (P : char → Prop) (s : str) :
  Forall P s → Forall P (lstrip s).
Proof.
  intros H. destruct (lstrip_suffix s) as [a [Ha _]].
  rewrite Ha in H. by apply Forall_app in H as [_ H].
Qed.

Lemma rstrip_Forall (P : char → Prop) (s : str) :
  Forall P s → Forall P (rstrip s).
Proof.
  intros H. destruct (rstrip_prefix s) as [a [Ha _]].
  rewrite Ha in H. by apply Forall_app in H as [H _].
Qed.

Lemma strip_Forall (P : char → Prop) (s : str) :
  Forall P s → Forall P (strip s).
Proof. intros H. unfold strip. by apply rstrip_Forall, lstrip_Forall. Qed.

Lemma lstrip_ws_collapsed (s : str) :
  DocumentProcessor.ws_collapsed s → DocumentProcessor.ws_collapsed (lstrip s).
Proof.
  induction s as [|c r IH]; simpl; [auto |].
  intros [Hc Hr]. destruct (isspace c) eqn:Ec; [by apply IH |].
  simpl. rewrite Ec. split; [discriminate | done].
Qed.

Lemma strip_ws_collapsed (s : str) :
  DocumentProcessor.ws_collapsed s → DocumentProcessor.ws_collapsed (strip s).
Proof.
  intros H. unfold strip. apply lstrip_ws_collapsed in H.
  destruct (rstrip_prefix (lstrip s)) as [a [Ha _]].
  rewrite Ha in H. by apply ws_collapsed_app_l in H.
Qed.

Lemma lstrip_no_lead (s : str) : no_lead (lstrip s).
Proof.
  induction s as [|c r IH]; simpl; [done |].
  destruct (isspace c) eqn:Ec; [done | simpl; done].
Qed.

Lemma lstrip_fixed (s : str) : no_lead s → lstrip s = s.
Proof. destruct s as [|c r]; simpl; [done |]. by intros ->. Qed.

Lemma rstrip_no_lead (s : str) : no_lead s → no_lead (rstrip s).
Proof.
  intros H. destruct (rstrip_prefix s) as [a [Ha _]].
  destruct (rstrip s) as [|c r]; [done |].
  rewrite Ha in H. exact H.
Qed.

Lemma rstrip_idem (s : str) : rstrip (rstrip s) = rstrip s.
Proof.
  unfold rstrip. rewrite rev_involutive.
  by rewrite (lstrip_fixed _ (lstrip_no_lead (rev s))).
Qed.

Lemma strip_idem (s : str) : strip (strip s) = strip s.
Proof.
  unfold strip.
  rewrite (lstrip_fixed (rstrip (lstrip s))).
  - apply rstrip_idem.
  - apply rstrip_no_lead, lstrip_no_lead.
Qed.

(** Only text made of whitespace strips to the empty string. *)
Lemma strip_nil (s : str) : strip s = [] → Forall (λ c, isspace c = true) s.
Proof.
  unfold strip. intros H.
  destruct (rstrip_prefix (lstrip s)) as [a [Ha Hws]].
  destruct (lstrip_suffix s) as [b [Hb Hwb]].
  rewrite H in Ha. simpl in Ha. rewrite Hb, Ha. by apply Forall_app.
Qed.

Lemma remove_char_absent (ch : char) (s : str) :
  Forall (λ c, c ≠ ch) s → remove_char ch s = s.
Proof.
  unfold remove_char. induction 1 as [|c r Hc _ IH]; simpl; [done |].
  destruct (N.eqb_spec c ch); [done |]. simpl. by rewrite IH.
Qed.

Lemma remove_char_Forall (P : char → Prop) (ch : char) (s : str) :
  Forall P s → Forall P (remove_char ch s).
Proof.
  unfold remove_char. induction 1 as [|c r Hc _ IH]; simpl; [done |].
  destruct (negb (c =? ch)%N); [by constructor | done].
Qed.

Lemma re_sub_ws_Forall (P : char → Prop) (s run : str) :
  P SP → Forall P s → Forall P (re_sub_run isspace 1 [SP] run s).
Proof.
  intros HP Hs. revert run. induction Hs as [|c r Hc _ IH]; intros run; simpl.
  - destruct (flush_run_one run) as [-> | ->]; repeat constructor; done.
  - destruct (isspace c); [apply IH |].
    apply Forall_app. split.
    + destruct (flush_run_one run) as [-> | ->]; repeat constructor; done.
    + constructor; [done | apply IH].
Qed.

End StringFacts.

(** ** Text normalisation *)

Section Normalisation.
Import DocumentProcessor.

(** After the whitespace collapse no newline is left, so the second
    substitution of [clean_text] finds nothing to replace. *)
Lemma collapsed_no_newline (s : str) :
  ws_collapsed s → Forall (λ c, (LF =? c)%N = false) s.
Proof.
  intros H. apply ws_collapsed_Forall in H.
  eapply Forall_impl; [exact H |]. intros c Hc. simpl in Hc.
  destruct (N.eqb_spec LF c) as [<- |]; [| done].
  by specialize (Hc eq_refl).
Qed.

Lemma clean_text_unfold (text : str) :
  clean_text text
  = strip (remove_char NUL (re_sub_class isspace 1 [SP] text)).
Proof.
  unfold clean_text.
  rewrite (re_sub_class_absent (N.eqb LF) 3); [done | lia |].
  apply collapsed_no_newline, re_sub_ws_collapsed.
Qed.

(** The normalised text never holds a newline: no paragraph break survives
    [clean_text]. *)
Lemma clean_text_no_newline (text : str) : LF ∉ clean_text text.
Proof.
  rewrite clean_text_unfold.
  assert (Forall (λ c, c ≠ LF)
            (strip (remove_char NUL (re_sub_class isspace 1 [SP] text)))) as H.
  { apply strip_Forall, remove_char_Forall.
    eapply Forall_impl; [apply collapsed_no_newline, re_sub_ws_collapsed |].
    intros c Hc ->. vm_compute in Hc. discriminate Hc. }
  rewrite Forall_forall in H. intros Hin. by apply (H LF Hin).
Qed.

(** C5, at the input [a\n\nb]: the paragraph break between [a] and [b] is
    normalised to a single space, where the specification keeps two
    consecutive newlines. *)
Theorem clean_text_paragraph_break_lost :
  clean_text (lit "a" ++ [LF; LF] ++ lit "b") = lit "a b".
Proof. vm_compute. reflexivity. Qed.




End Normalisation.

(** ** Chunking *)

Section ChunkFacts.
Import DocumentProcessor.

Lemma slice_lookup {A} (l : list A) (a b : Z) (i : nat) (x : A) :
  0 <= a → a <= Z.of_nat i < b → l !! i = Some x → x ∈ slice l a b.
Proof.
  intros Ha Hi Hx. pose proof (lookup_lt_Some _ _ _ Hx) as Hlen.
  unfold slice, slice_bound.
  destruct (Z.ltb_spec a 0); [lia |]. destruct (Z.ltb_spec b 0); [lia |].
  apply (list_elem_of_lookup_2 _ (i - Z.to_nat (Z.min a (Z.of_nat (length l))))%nat).
  rewrite lookup_take_lt by lia.
  rewrite lookup_drop. rewrite <- Hx. f_equal. lia.
Qed.

(** A slice that starts at [0] and ends at or after the end is the whole
    sequence. *)
Lemma slice_all {A} (l : list A) (b : Z) :
  Z.of_nat (length l) <= b → slice l 0 b = l.
Proof.
  intros Hb. unfold slice, slice_bound.
  destruct (Z.ltb_spec b 0); [lia |].
  change (0 <? 0) with false. cbv iota.
  replace (Z.to_nat (Z.min 0 (Z.of_nat (length l)))) with O by lia.
  replace (Z.to_nat (Z.min b (Z.of_nat (length l))
                     - Z.min 0 (Z.of_nat (length l)))) with (length l) by lia.
  apply firstn_all.
Qed.

Lemma key_ne (a b : string) :
  bool_decide (lit a = lit b) = false → lit a ≠ lit b.
Proof. intros H Heq. by rewrite bool_decide_eq_false in H. Qed.

Lemma chunk_data_char_start (t : str) (id a b : Z) :
  chunk_data t id a b !! lit "char_start" = Some (VInt a).
Proof.
  unfold chunk_data.
  rewrite !lookup_insert_ne by (by apply key_ne).
  apply lookup_insert_eq.
Qed.

Lemma chunk_data_char_end (t : str) (id a b : Z) :
  chunk_data t id a b !! lit "char_end" = Some (VInt b).
Proof.
  unfold chunk_data.
  rewrite !lookup_insert_ne by (by apply key_ne).
  apply lookup_insert_eq.
Qed.

Lemma chunk_data_text (t : str) (id a b : Z) :
  chunk_data t id a b !! lit "text" = Some (VStr t).
Proof.
  unfold chunk_data.
  rewrite !lookup_insert_ne by (by apply key_ne).
  apply lookup_insert_eq.
Qed.

(** The metadata copied into a chunk never touches its two offsets. *)
Lemma dict_update_bound (d meta : Dict) (k : str) :
  k ∈ [lit "char_start"; lit "char_end"] →
  dict_update d (segment_items meta) !! k = d !! k.
Proof.
  intros Hk. unfold dict_update, segment_items.
  apply lookup_union_r. apply map_lookup_filter_None. right.
  intros x _ Hp. simpl in Hp. by apply Hp.
Qed.

Lemma dict_update_text (d meta : Dict) :
  meta !! lit "text" = None →
  dict_update d (segment_items meta) !! lit "text" = d !! lit "text".
Proof.
  intros Hk. unfold dict_update, segment_items.
  apply lookup_union_r. apply map_lookup_filter_None. by left.
Qed.

Lemma in_segment_typed (start : Z) (meta : Dict) :
  segment_typed meta → ∃ b, in_segment start meta = Ok b.
Proof.
  intros [Ha Hb]. unfold in_segment.
  destruct (meta !! lit "char_start") as [a|]; [| by eexists].
  destruct (meta !! lit "char_end") as [b|]; [| by eexists].
  destruct (Ha a eq_refl) as [za ->]. destruct (Hb b eq_refl) as [zb ->].
  simpl. destruct (start >=? za); by eexists.
Qed.

Lemma find_segment_typed (start : Z) (entries : list Dict) :
  Forall segment_typed entries →
  ∃ r, find_segment start entries = Ok r
       ∧ match r with Some meta => meta ∈ entries | None => True end.
Proof.
  induction 1 as [|meta rest Hm _ [r [IH Hr]]]; simpl; [by exists None |].
  destruct (in_segment_typed start meta Hm) as [b ->]. simpl.
  destruct b.
  - exists (Some meta). split; [done | by left].
  - exists r. split; [done |]. destruct r; [by right | done].
Qed.

(** With well-typed segments [emit_chunk] never raises: it either skips an
    empty chunk or appends one chunk whose offsets are the window's. *)
Lemma emit_chunk_typed (metadata : option (list Dict)) (chunk_text : str)
    (a b : Z) (chunks : list Dict) (id : Z) :
  segments_typed metadata →
  ∃ chunks' id',
    emit_chunk metadata chunk_text a b chunks id = Ok (chunks', id')
    ∧ (chunk_text = [] ∧ chunks' = chunks
       ∨ chunk_text ≠ [] ∧ ∃ d, chunks' = chunks ++ [d]
           ∧ d !! lit "char_start" = Some (VInt a)
           ∧ d !! lit "char_end" = Some (VInt b)
           ∧ (segments_keep_text metadata →
              d !! lit "text" = Some (VStr chunk_text))).
Proof.
  intros Ht. unfold emit_chunk.
  destruct chunk_text as [|c0 r0]; [by eexists _, _; split; [| left] |].
  set (t := c0 :: r0).
  assert (∀ d : Dict,
    d !! lit "char_start" = Some (VInt a) →
    d !! lit "char_end" = Some (VInt b) →
    (segments_keep_text metadata → d !! lit "text" = Some (VStr t)) →
    ∃ chunks' id',
      res_bind (Ok d) (λ data, Ok (chunks ++ [data], id + 1)) = Ok (chunks', id')
      ∧ (t = [] ∧ chunks' = chunks
         ∨ t ≠ [] ∧ ∃ d, chunks' = chunks ++ [d]
             ∧ d !! lit "char_start" = Some (VInt a)
             ∧ d !! lit "char_end" = Some (VInt b)
             ∧ (segments_keep_text metadata →
                d !! lit "text" = Some (VStr t)))) as Hfin.
  { intros d H1 H2 H3. eexists _, _. split; [reflexivity |]. right.
    split; [done |]. by exists d. }
  pose proof (chunk_data_char_start t id a b) as Hs.
  pose proof (chunk_data_char_end t id a b) as He.
  pose proof (chunk_data_text t id a b) as Hx.
  destruct metadata as [[|m0 ms]|]; [by apply Hfin | | by apply Hfin].
  simpl in Ht.
  destruct (find_segment_typed a (m0 :: ms) Ht) as [r [-> Hr]]. simpl.
  destruct r as [meta|]; [| by apply Hfin].
  apply Hfin.
  - rewrite dict_update_bound; [done | by left].
  - rewrite dict_update_bound; [done | by right; left].
  - intros Hk. simpl in Hk. rewrite Forall_forall in Hk.
    rewrite dict_update_text; [done | by apply Hk].
Qed.

Lemma chunk_loop_S (self : t) (fuel : nat) (text : str)
    (metadata : option (list Dict)) (start : Z) (chunks : list Dict) (id : Z) :
  chunk_loop self (S fuel) text metadata start chunks id =
  if start <? len text then
    match emit_chunk metadata
            (strip (slice text start (window_end self text start)))
            start (window_end self text start) chunks id with
    | Raise e => Some (Raise e)
    | Ok (chunks', id') =>
        if (window_end self text start - chunk_overlap self <=? 0)
           || (window_end self text start >=? len text)
        then Some (Ok chunks')
        else chunk_loop self fuel text metadata
               (window_end self text start - chunk_overlap self) chunks' id'
    end
  else Some (Ok chunks).
Proof. reflexivity. Qed.

End ChunkFacts.

Section Chunker.
Import DocumentProcessor.

Variable self : t.
Variable text : str.
Variable metadata : option (list Dict).

Lemma covered_upto_all (chunks : list Dict) (b : Z) :
  len text <= b → covered_upto text chunks b → covers_text chunks text.
Proof.
  intros Hb H i c Hi Hc. apply (H i c Hi Hc).
  apply lookup_lt_Some in Hi. unfold len in Hb. lia.
Qed.

(** One window: what was covered stays covered, and the window adds its own
    positions. *)
Lemma covered_upto_window (chunks chunks' : list Dict) (id id' a b : Z) :
  0 <= a →
  segments_typed metadata →
  emit_chunk metadata (strip (slice text a b)) a b chunks id
    = Ok (chunks', id') →
  covered_upto text chunks a → covered_upto text chunks' b.
Proof.
  intros Ha Ht Hemit Hcov i c Hi Hc Hib.
  destruct (emit_chunk_typed metadata (strip (slice text a b)) a b chunks id Ht)
    as (cs & n & Heq & Hcase).
  rewrite Hemit in Heq. injection Heq as <- <-.
  destruct (Z.lt_ge_cases (Z.of_nat i) a) as [Hlt | Hge].
  - destruct (Hcov i c Hi Hc Hlt) as (ch & Hin & Hr).
    exists ch. split; [| done].
    destruct Hcase as [[_ ->] | (_ & d & -> & _)]; [done |].
    apply elem_of_app. by left.
  - destruct Hcase as [[Hnil _] | (_ & d & -> & Hs & He & _)].
    + apply strip_nil in Hnil. rewrite Forall_forall in Hnil.
      assert (c ∈ slice text a b) as Hin by (by apply (slice_lookup text a b i)).
      specialize (Hnil c Hin). congruence.
    + exists d. split; [apply elem_of_app; right; by left |].
      exists a, b. done.
Qed.

Hypothesis size_pos : 0 < chunk_size self.
Hypothesis overlap_nonneg : 0 <= chunk_overlap self.
Hypothesis overlap_lt : chunk_overlap self < chunk_size self.
Hypothesis overlap_half : chunk_overlap self <= chunk_size self / 2 + 1.

(** Each window ends beyond the next start position, so the scan moves
    forward. *)
Lemma window_end_progress (start : Z) :
  start + chunk_overlap self < window_end self text start.
Proof.
  unfold window_end. cbv zeta.
  destruct (start + chunk_size self <? len text); [| lia].
  match goal with |- context [?x >? ?y] => destruct (Z.gtb_spec x y) end.
  all: lia.
Qed.

(** With the overlap at most half a window (plus one), the loop returns
    within [len text - start + 1] iterations and leaves no character other
    than whitespace outside the chunks. *)
Lemma chunk_loop_total (fuel : nat) :
  segments_typed metadata →
  ∀ start chunks id,
    0 <= start →
    (Z.to_nat (len text - start) < fuel)%nat →
    covered_upto text chunks start →
    ∃ out, chunk_loop self fuel text metadata start chunks id = Some (Ok out)
           ∧ covers_text out text.
Proof.
  intros Ht. induction fuel as [|fuel IH]; intros start chunks id H0 Hf Hcov;
    [lia |].
  rewrite chunk_loop_S.
  destruct (Z.ltb_spec start (len text)) as [Hlt | Hge].
  - pose proof (window_end_progress start) as Hp.
    set (e := window_end self text start) in *.
    destruct (emit_chunk_typed metadata (strip (slice text start e)) start e
                chunks id Ht) as (cs & n & Heq & _).
    rewrite Heq.
    pose proof (covered_upto_window _ _ _ _ _ _ H0 Ht Heq Hcov) as Hcov'.
    destruct (Z.leb_spec (e - chunk_overlap self) 0) as [? | Hpos]; [lia |].
    rewrite Z.geb_leb.
    destruct (Z.leb_spec (len text) e) as [Hend | Hmore]; simpl.
    + exists cs. split; [done |]. by apply (covered_upto_all cs e).
    + apply IH; [lia | lia |].
      intros i c Hi Hc Hib. apply (Hcov' i c Hi Hc). lia.
  - exists chunks. split; [done |]. by apply (covered_upto_all chunks start).
Qed.

End Chunker.

Section ChunkerProperties.
Import DocumentProcessor.

(** With chunk_size 10, chunk_overlap 8 and a text of twenty characters with
    one full stop at index 9, the loop is stuck from the second iteration
    on: the window [2, 12) is snapped to end at 10 and the next start is
    10 - 8 = 2 again. *)
Lemma chunk_loop_stuck (fuel : nat) (chunks : list Dict) (id : Z) :
  chunk_loop (mk 10 8) fuel (lit "aaaaaaaaa.aaaaaaaaaa") None 2 chunks id
  = None.
Proof.
  revert chunks id. induction fuel as [|fuel IH]; intros chunks id; [done |].
  rewrite chunk_loop_S.
  change (window_end (mk 10 8) (lit "aaaaaaaaa.aaaaaaaaaa") 2)
    with 10.
  change (strip (slice (lit "aaaaaaaaa.aaaaaaaaaa") 2 10))
    with (lit "aaaaaaa.").
  change (2 <? len (lit "aaaaaaaaa.aaaaaaaaaa")) with true.
  cbv iota. unfold emit_chunk at 1.
  change (lit "aaaaaaa.") with (97%N :: lit "aaaaaa.") at 1.
  cbv iota beta. unfold res_bind at 1.
  change ((10 - chunk_overlap (mk 10 8) <=? 0)
          || (10 >=? len (lit "aaaaaaaaa.aaaaaaaaaa"))) with false.
  cbv iota. apply IH.
Qed.

(** C6, at chunk_size 10 and chunk_overlap 8, a valid configuration: on
    the text [aaaaaaaaa.aaaaaaaaaa] the loop of [create_chunks] returns
    within no number of iterations, where the specification has it
    terminate on every valid input. *)
Theorem create_chunks_diverges :
  0 < chunk_size (mk 10 8)
  ∧ 0 <= chunk_overlap (mk 10 8) < chunk_size (mk 10 8)
  ∧ ∀ fuel, create_chunks (mk 10 8) fuel (lit "aaaaaaaaa.aaaaaaaaaa") None
            = None.
Proof.
  split; [done |]. split; [done |].
  intros [|fuel]; [done |].
  unfold create_chunks.
  change (clean_text (lit "aaaaaaaaa.aaaaaaaaaa"))
    with (lit "aaaaaaaaa.aaaaaaaaaa").
  rewrite chunk_loop_S.
  change (window_end (mk 10 8) (lit "aaaaaaaaa.aaaaaaaaaa") 0) with 10.
  change (strip (slice (lit "aaaaaaaaa.aaaaaaaaaa") 0 10))
    with (lit "aaaaaaaaa.").
  change (0 <? len (lit "aaaaaaaaa.aaaaaaaaaa")) with true.
  cbv iota. unfold emit_chunk at 1.
  change (lit "aaaaaaaaa.") with (97%N :: lit "aaaaaaaa.") at 1.
  cbv iota beta. unfold res_bind at 1.
  change ((10 - chunk_overlap (mk 10 8) <=? 0)
          || (10 >=? len (lit "aaaaaaaaa.aaaaaaaaaa"))) with false.
  cbv iota. apply chunk_loop_stuck.
Qed.

(** C7 as stated fails: a window that holds only whitespace emits no chunk.
    With chunk_size 1 and chunk_overlap 0, a valid configuration, the text
    [a b] gives the chunks [0, 1) and [2, 3), and position 1 belongs to
    neither. *)
Lemma coverage_skips_whitespace_window :
  0 < chunk_size (mk 1 0)
  ∧ 0 <= chunk_overlap (mk 1 0) < chunk_size (mk 1 0)
  ∧ ∀ fuel, (3 <= fuel)%nat →
      create_chunks (mk 1 0) fuel (lit "a b") None
        = Some (Ok [chunk_data (lit "a") 0 0 1; chunk_data (lit "b") 1 2 3])
      ∧ ¬ covers [chunk_data (lit "a") 0 0 1; chunk_data (lit "b") 1 2 3]
            (len (clean_text (lit "a b"))).
Proof.
  split; [done |]. split; [done |]. intros fuel Hf. split.
  - destruct fuel as [|[|[|fuel]]]; [lia.. |]. vm_compute. reflexivity.
  - intros H. destruct (H 1) as (c & Hin & a & b & Hs & He & Hr);
      [by vm_compute |].
    apply elem_of_cons in Hin as [-> | Hin];
      [| apply list_elem_of_singleton in Hin as ->];
      rewrite chunk_data_char_start in Hs; rewrite chunk_data_char_end in He;
      injection Hs as <-; injection He as <-; lia.
Qed.

(** An overlap beyond half a window is another matter: with chunk_size 10
    and chunk_overlap 9 the first window of [aaaaaa.aaaaaaaaaaaaa] is
    snapped to [0, 7); the next start, 7 - 9, is not positive, the guard of
    the loop ends the scan, and positions 7 to 19 belong to no chunk. *)
Lemma coverage_lost_after_early_exit :
  0 < chunk_size (mk 10 9)
  ∧ 0 <= chunk_overlap (mk 10 9) < chunk_size (mk 10 9)
  ∧ ∀ fuel,
      create_chunks (mk 10 9) (S fuel) (lit "aaaaaa.aaaaaaaaaaaaa") None
        = Some (Ok [chunk_data (lit "aaaaaa.") 0 0 7])
      ∧ ¬ covers [chunk_data (lit "aaaaaa.") 0 0 7]
            (len (clean_text (lit "aaaaaa.aaaaaaaaaaaaa"))).
Proof.
  split; [done |]. split; [done |]. intros fuel. split.
  - vm_compute. reflexivity.
  - intros H. destruct (H 7) as (c & Hin & a & b & Hs & He & Hr);
      [by vm_compute |].
    apply list_elem_of_singleton in Hin as ->.
    rewrite chunk_data_char_start in Hs. rewrite chunk_data_char_end in He.
    injection Hs as <-. injection He as <-. lia.
Qed.

(** C9 as stated fails: for the text [abc] and chunk_size 1000 the one chunk
    records char_end = 1000, the unclamped end of the window, not
    len(text) = 3. *)
Lemma short_text_char_end_is_chunk_size :
  clean_text (lit "abc") ≠ []
  ∧ len (clean_text (lit "abc")) < chunk_size (mk 1000 200)
  ∧ ∃ c, create_chunks (mk 1000 200) 1 (lit "abc") None = Some (Ok [c])
         ∧ c !! lit "char_end" = Some (VInt 1000)
         ∧ c !! lit "char_end" ≠ Some (VInt (len (clean_text (lit "abc")))).
Proof.
  split; [by vm_compute |]. split; [by vm_compute |].
  exists (chunk_data (lit "abc") 0 0 1000).
  split; [vm_compute; reflexivity |].
  rewrite chunk_data_char_end. split; [done |].
  vm_compute. discriminate.
Qed.

(** C9, amended: a non-empty normalised text strictly shorter than
    chunk_size gives exactly one chunk; its text is the whole normalised
    text, its char_start is 0 and its char_end is chunk_size. *)
Theorem create_chunks_short_text (self : t) (text : str)
    (metadata : option (list Dict)) (fuel : nat) :
  clean_text text ≠ [] →
  len (clean_text text) < chunk_size self →
  segments_typed metadata →
  segments_keep_text metadata →
  ∃ c, create_chunks self (S fuel) text metadata = Some (Ok [c])
       ∧ c !! lit "text" = Some (VStr (clean_text text))
       ∧ c !! lit "char_start" = Some (VInt 0)
       ∧ c !! lit "char_end" = Some (VInt (chunk_size self)).
Proof.
  intros Hne Hlen Ht Hk. unfold create_chunks.
  assert (strip (clean_text text) = clean_text text) as Hstrip
    by (rewrite clean_text_unfold; apply strip_idem).
  set (s := clean_text text) in *.
  rewrite chunk_loop_S.
  assert (0 < len s) as Hpos
    by (unfold len; destruct s; [done | simpl; lia]).
  destruct (Z.ltb_spec 0 (len s)); [| lia].
  assert (window_end self s 0 = chunk_size self) as ->.
  { unfold window_end. cbv zeta.
    destruct (Z.ltb_spec (0 + chunk_size self) (len s)); lia. }
  rewrite slice_all by (unfold len in Hlen; lia). rewrite Hstrip.
  destruct (emit_chunk_typed metadata s 0 (chunk_size self) [] 0 Ht)
    as (cs & n & -> & [[Hnil _] | (_ & d & -> & Hs & He & Hx)]); [done |].
  replace (chunk_size self >=? len s) with true
    by (symmetry; rewrite Z.geb_leb; apply Z.leb_le; lia).
  rewrite orb_true_r. exists d. simpl. auto.
Qed.

Lemma create_chunks_short_text_witness :
  ∃ c, create_chunks (mk 1000 200) 1 (lit "  Short   note. ") None
         = Some (Ok [c])
       ∧ c !! lit "text" = Some (VStr (clean_text (lit "  Short   note. ")))
       ∧ c !! lit "char_start" = Some (VInt 0)
       ∧ c !! lit "char_end" = Some (VInt (chunk_size (mk 1000 200))).
Proof.
  apply (create_chunks_short_text (mk 1000 200) (lit "  Short   note. ") None 0).
  - vm_compute. discriminate.
  - vm_compute. reflexivity.
  - exact I.
  - exact I.
Defined.

End ChunkerProperties.

(** ** Retrieval *)

Section Retrieval.
Import Numpy Faiss RAGSystem Demo.

Ltac run :=
  cbv [bind ret raise lift get put send set_index set_chunks set_metadata
       embeddings_request chat_request].

Lemma zip_fst_snd_map {A B} (l : list (A * B)) :
  zip (List.map fst l) (List.map snd l) = l.
Proof.
  induction l as [|[a b] l IH]; simpl; [done |]. by rewrite IH.
Qed.

Lemma insert_by_distance_perm (x : Z * Q) (l : list (Z * Q)) :
  insert_by_distance x l ≡ₚ x :: l.
Proof.
  induction l as [|y r IH]; simpl; [done |].
  destruct (negb (Qle_bool x.2 y.2)); [| done].
  rewrite IH. apply Permutation_swap.
Qed.

Lemma sort_by_distance_perm (l : list (Z * Q)) :
  foldr insert_by_distance [] l ≡ₚ l.
Proof.
  induction l as [|x l IH]; simpl; [done |].
  by rewrite insert_by_distance_perm, IH.
Qed.

(** [knn] fills exactly [k] slots. *)
Lemma knn_length (idx : IndexFlatL2) (q : vec) (k : nat) :
  length (knn idx q k) = k.
Proof.
  unfold knn. rewrite length_app, length_replicate.
  assert (length (take k (foldr insert_by_distance []
            (imap (λ i x, (Z.of_nat i, l2sqr q x)) (xb idx)))) ≤ k)%nat
    by (rewrite length_take; lia).
  lia.
Qed.

(** Every label is the position of a stored vector, or -1. *)
Lemma knn_labels (idx : IndexFlatL2) (q : vec) (k : nat) :
  Forall (λ p : Z * Q, -1 <= p.1 < ntotal idx) (knn idx q k).
Proof.
  unfold knn. apply Forall_app. split.
  - apply Forall_take. rewrite sort_by_distance_perm.
    apply Forall_forall. intros p Hp.
    apply elem_of_lookup_imap in Hp as (i & x & -> & Hx).
    apply lookup_lt_Some in Hx. unfold ntotal. simpl. lia.
  - apply Forall_replicate. unfold ntotal. simpl. lia.
Qed.

Lemma py_index_in_range {A} (l : list A) (i : Z) :
  - Z.of_nat (length l) <= i < Z.of_nat (length l) → ∃ a, py_index l i = Ok a.
Proof.
  intros Hi. unfold py_index.
  set (j := if i <? 0 then i + Z.of_nat (length l) else i).
  assert (0 <= j < Z.of_nat (length l)) as Hj
    by (unfold j; destruct (Z.ltb_spec i 0); lia).
  destruct (Z.leb_spec 0 j); [| lia].
  destruct (Z.ltb_spec j (Z.of_nat (length l))); [| lia]. simpl.
  destruct (lookup_lt_is_Some_2 l (Z.to_nat j)) as [a ->]; [lia |].
  by exists a.
Qed.

(** Each slot whose label is below [len(self.chunks)], the label -1
    included, adds one result. *)
Lemma collect_results_length (chunks : list str) (metadata : list Dict)
    (pairs : list (Z * Q)) (acc : list (str * Dict * Q)) :
  (0 < length chunks)%nat →
  length metadata = length chunks →
  Forall (λ p : Z * Q, -1 <= p.1 < len chunks) pairs →
  ∃ out, collect_results chunks metadata pairs acc = Ok out
         ∧ length out = (length acc + length pairs)%nat.
Proof.
  intros Hn Hm Hp. revert acc.
  induction Hp as [|[i dist] rest Hi _ IH]; intros acc; simpl.
  - exists acc. split; [done | lia].
  - simpl in Hi. unfold len in *.
    destruct (Z.ltb_spec i (Z.of_nat (length chunks))); [| lia].
    destruct (py_index_in_range chunks i) as [c ->]; [lia |].
    destruct (py_index_in_range metadata i) as [m ->]; [lia |]. simpl.
    destruct (IH (acc ++ [(c, m, dist)])) as (out & -> & Hlen).
    exists out. split; [done |]. rewrite Hlen, length_app. simpl. lia.
Qed.

(** On a built object whose side lists match the index, and with a backend
    that embeds the query in the dimension of the index, [search] returns
    exactly [k] results for every positive [k]: more results than indexed
    vectors as soon as [k] exceeds their number. *)
Lemma search_returns_k_results (w : world) (idx : IndexFlatL2) (query : str)
    (k : Z) (v : vec) :
  index (self w) = Some idx →
  (0 < length (xb idx))%nat →
  length (chunks (self w)) = length (xb idx) →
  length (metadata (self w)) = length (xb idx) →
  embeddings_create (client (self w)) [query] (embedding_model (self w))
    = Ok [v] →
  Z.of_nat (length v) = d idx →
  0 < k →
  ∃ results, (search query k w).2 = Ok results ∧ len results = k.
Proof.
  intros Hidx Hn Hc Hm Hemb Hd Hk.
  unfold search, create_embeddings. run. rewrite Hidx.
  change (range_step (length [query]) 100) with [0%nat].
  cbn [embed_batches]. run.
  change (slice [query] (Z.of_nat 0) (Z.of_nat 0 + 100)) with [query].
  cbn [self calls]. rewrite Hemb. cbn [app].
  unfold Numpy.array. cbn [forallb]. rewrite Nat.eqb_refl. cbn [andb].
  unfold Faiss.search. cbn [shape rows length]. rewrite Hd, Z.eqb_refl.
  cbn [negb]. destruct (Z.leb_spec k 0); [lia |].
  cbn [List.map]. change (py_index [?x] 0) with (Ok x). cbv beta iota.
  rewrite zip_fst_snd_map.
  destruct (collect_results_length (chunks (self w)) (metadata (self w))
              (knn idx v (Z.to_nat k)) []) as (out & Hout & Hlen).
  - lia.
  - lia.
  - eapply Forall_impl; [apply knn_labels |].
    intros p Hp. simpl in *. unfold ntotal, len in *. lia.
  - exists out. cbn [snd]. split.
    + exact Hout.
    + unfold len. rewrite Hlen, knn_length. simpl. lia.
Qed.

(** C1, at k = 3 on an index of two vectors: FAISS fills the third slot with
    label -1, the guard [idx < len(self.chunks)] lets -1 through, and
    [self.chunks[-1]] is the last chunk.  The call returns three results, the
    chunk [b] twice, where the specification returns the two indexed
    chunks. *)
Theorem search_beyond_index_repeats_last_chunk :
  (search (lit "q") 3 demo_built).2
  = Ok [ (lit "a", {[ lit "index" := VInt 0 ]}, 0%Q);
         (lit "b", {[ lit "index" := VInt 1 ]}, 1%Q);
         (lit "b", {[ lit "index" := VInt 1 ]}, FLT_MAX) ].
Proof. vm_compute. reflexivity. Qed.

(** C2 as stated fails: a vector file of two vectors next to a side table of
    one chunk is loaded without complaint. *)
Lemma load_index_accepts_mismatched_pair :
  let fs : gmap str file :=
    <[ lit "doc_1.faiss" := FaissFile (mk_index 1 [[0%Q]; [1%Q]]) ]>
    (<[ lit "doc_1.pkl" :=
          PickleFile (mk_pickled (Some [lit "a"]) (Some [∅])) ]> ∅) in
  let out :=
    load_index (λ _, Exn "UnpicklingError") fs (lit "doc_1") demo_fresh in
  out.2 = Ok tt
  ∧ ntotal <$> index (self out.1) = Some 2
  ∧ len (chunks (self out.1)) = 1
  ∧ len (metadata (self out.1)) = 1.
Proof. vm_compute. repeat split; reflexivity. Qed.

(** C2, amended: whenever both artifacts are readable, [load_index]
    succeeds and installs the index, the chunks and the metadata as read,
    whatever the two lengths are.  Whenever one is missing or unreadable it
    raises the exception of the read that fails, unchanged, and sends no
    request: from [faiss.read_index] a RuntimeError when the vector file is
    missing, empty or a pickle, and the error of FAISS on other bytes, the
    object being left as it was; then, [self.index] already replaced,
    FileNotFoundError when the side table is missing, EOFError when it is
    empty, the error of [pickle.load] on other bytes that are no pickle,
    TypeError when the pickled object is a list, a tuple, a string, a number
    or None, the error of [data['chunks']] on another object that is no
    dict, and KeyError on a dict without ['chunks'] or, [self.chunks]
    replaced as well, without ['metadata']. *)
Theorem load_index_outcome (unpickle_index : IndexFlatL2 → exn)
    (fs : gmap str file) (index_path : str) (w : world) :
  let out := load_index unpickle_index fs index_path w in
  let indexed idx := with_index (self w) (Some idx) in
  match file_at fs (index_path ++ lit ".faiss") with
  | Some (FaissFile idx) =>
      match file_at fs (index_path ++ lit ".pkl") with
      | Some (PickleFile (mk_pickled (Some c) (Some m))) =>
          out = (mk_world (with_metadata (with_chunks (indexed idx) c) m)
                   (calls w),
                 Ok tt)
      | Some (PickleFile (mk_pickled (Some c) None)) =>
          out = (mk_world (with_chunks (indexed idx) c) (calls w),
                 Raise (Exn "KeyError"))
      | Some (PickleFile (mk_pickled None _)) =>
          out = (mk_world (indexed idx) (calls w), Raise (Exn "KeyError"))
      | Some PlainFile =>
          out = (mk_world (indexed idx) (calls w), Raise (Exn "TypeError"))
      | Some (ObjectFile getitem_error) =>
          out = (mk_world (indexed idx) (calls w), Raise getitem_error)
      | Some EmptyFile =>
          out = (mk_world (indexed idx) (calls w), Raise (Exn "EOFError"))
      | Some (OtherFile _ load_error) =>
          out = (mk_world (indexed idx) (calls w), Raise load_error)
      | Some (FaissFile other) =>
          out = (mk_world (indexed idx) (calls w),
                 Raise (unpickle_index other))
      | None =>
          out = (mk_world (indexed idx) (calls w),
                 Raise (Exn "FileNotFoundError"))
      end
  | Some (OtherFile read_error _) => out = (w, Raise read_error)
  | Some (PickleFile _) | Some PlainFile | Some (ObjectFile _)
  | Some EmptyFile | None =>
      out = (w, Raise (Exn "RuntimeError"))
  end.
Proof.
  cbv zeta. unfold load_index, read_index, pickle_load. run.
  destruct (file_at fs (index_path ++ lit ".faiss"))
    as [[idx|data| |e| |e1 e2]|];
    try reflexivity.
  simpl.
  destruct (file_at fs (index_path ++ lit ".pkl"))
    as [[idx'|[[c|] [m|]]| |e| |e1 e2]|];
    reflexivity.
Qed.

(** C3 as stated fails: the exception raised on an empty chunk list is an
    IndexError, and [self.chunks] of a built object has been emptied by
    then. *)
Lemma create_index_empty_raises_index_error :
  let out := create_index [] None demo_built in
  out.2 = Raise (Exn "IndexError")
  ∧ out.2 ≠ Raise (Exn "EmptyDocumentError")
  ∧ chunks (self out.1) ≠ chunks (self demo_built).
Proof. vm_compute. repeat split; discriminate. Qed.

(** C3, amended: [create_index] on an empty chunk list raises IndexError (the
    empty embedding array has no second dimension) without sending any
    request to the embedding backend, and leaves [self.index] as it was;
    [self.chunks] and [self.metadata] have been overwritten by then. *)
Theorem create_index_empty (metadata : option (list Dict)) (w : world) :
  create_index [] metadata w
  = (mk_world
       (with_metadata (with_chunks (self w) [])
          (match metadata with Some ((_ :: _) as m) => m | _ => [] end))
       (calls w),
     Raise (Exn "IndexError")).
Proof. destruct metadata as [[|m ms]|]; reflexivity. Qed.

Lemma pick_in_range (chunks : list str) (indices : list nat) :
  Forall (λ i, (i < length chunks)%nat) indices →
  ∃ picked, pick chunks indices = Ok picked
            ∧ length picked = length indices.
Proof.
  induction 1 as [|i rest Hi _ (picked & IH & Hlen)]; simpl; [by exists [] |].
  unfold py_index.
  destruct (Z.ltb_spec (Z.of_nat i) 0); [lia |].
  destruct (Z.leb_spec 0 (Z.of_nat i)); [| lia].
  destruct (Z.ltb_spec (Z.of_nat i) (Z.of_nat (length chunks))); [| lia].
  simpl. rewrite Nat2Z.id.
  destruct (lookup_lt_is_Some_2 chunks i Hi) as [c ->]. simpl.
  rewrite IH. simpl. exists (c :: picked). split; [done | simpl; lia].
Qed.

(** Whatever permutation the generator draws, the sampling succeeds and
    yields [min(10, len(self.chunks))] chunks. *)
Lemma sample_chunks_ok (rng : nat → list nat) (chunks : list str) :
  rng (length chunks) ≡ₚ seq 0 (length chunks) →
  ∃ sampled, sample_chunks rng chunks = Ok sampled
             ∧ length sampled = Nat.min 10 (length chunks).
Proof.
  intros Hperm. unfold sample_chunks, random_choice.
  assert (((length chunks =? 0)%nat
           && negb (Nat.min 10 (length chunks) =? 0)%nat) = false) as ->.
  { destruct (length chunks); [done | by rewrite andb_false_l]. }
  destruct (Nat.ltb_spec (length chunks) (Nat.min 10 (length chunks))); [lia |].
  cbn [res_bind].
  destruct (pick_in_range chunks
              (take (Nat.min 10 (length chunks)) (rng (length chunks))))
    as (picked & -> & Hlen).
  - apply Forall_take. apply Forall_forall. intros i Hi.
    rewrite Hperm in Hi. apply elem_of_seq in Hi. lia.
  - exists picked. split; [done |]. rewrite Hlen, length_take.
    rewrite Hperm, length_seq. lia.
Qed.

(** C4, at a backend that answers with a sentence that is no JSON at all:
    [generate_quiz_questions] and [generate_flashcards], declared
    [-> List[Dict]], return that sentence as it is; the caller gets neither
    a list of records nor a MalformedGenerationOutputError. *)
Theorem generators_return_unparsed_text :
  let quiz :=
    (generate_quiz_questions (seq 0) 5 (lit "medium") None demo_built).2 in
  let cards := (generate_flashcards (seq 0) 10 None demo_built).2 in
  quiz = Ok (Text (lit "Sorry, I cannot help with that."))
  ∧ cards = Ok (Text (lit "Sorry, I cannot help with that."))
  ∧ (∀ records, quiz ≠ Ok (Records records))
  ∧ quiz ≠ Raise (Exn "MalformedGenerationOutputError")
  ∧ (∀ records, cards ≠ Ok (Records records))
  ∧ cards ≠ Raise (Exn "MalformedGenerationOutputError").
Proof. vm_compute. repeat split; intros; discriminate. Qed.

(** In general: both generators sample [min(10, len(self.chunks))] chunks,
    send one chat request built from them and hand back whatever text the
    backend answers, without looking at it; an exception of the backend
    propagates, and nothing else is raised. *)
Lemma generators_return_backend_text (rng : nat → list nat) (w : world)
    (num_questions : Z) (difficulty : str) (topic : option str)
    (num_cards : Z) :
  rng (length (chunks (self w))) ≡ₚ seq 0 (length (chunks (self w))) →
  ∃ sampled,
    sample_chunks rng (chunks (self w)) = Ok sampled
    ∧ length sampled = Nat.min 10 (length (chunks (self w)))
    ∧ generate_quiz_questions rng num_questions difficulty topic w
      = (mk_world (self w)
           (calls w ++
            [ChatCompletionsCreate (deployment_name (self w))
               (quiz_request num_questions difficulty topic sampled)
               (8 # 10)%Q 2000]),
         res_map Text
           (chat_completions_create (client (self w))
              (deployment_name (self w))
              (quiz_request num_questions difficulty topic sampled)
              (8 # 10)%Q 2000))
    ∧ generate_flashcards rng num_cards topic w
      = (mk_world (self w)
           (calls w ++
            [ChatCompletionsCreate (deployment_name (self w))
               (flashcard_request num_cards topic sampled)
               (7 # 10)%Q 2000]),
         res_map Text
           (chat_completions_create (client (self w))
              (deployment_name (self w))
              (flashcard_request num_cards topic sampled)
              (7 # 10)%Q 2000)).
Proof.
  intros Hperm.
  destruct (sample_chunks_ok rng (chunks (self w)) Hperm)
    as (sampled & Hs & Hlen).
  exists sampled. split; [done |]. split; [done |].
  unfold generate_quiz_questions, generate_flashcards. run. rewrite Hs.
  unfold quiz_request, flashcard_request. simpl.
  split.
  - by destruct (chat_completions_create _ _ _ _ _).
  - by destruct (chat_completions_create _ _ _ _ _).
Qed.

(** C10: on a fresh object (no index, no chunks) [search] raises ValueError
    and sends nothing, while both generators sample zero chunks, send one
    chat request whose context block is empty, and return what the backend
    answers. *)
Theorem generators_skip_readiness_check (azure_client : AzureOpenAI)
    (deployment model query : str) (k : Z) (sent : list call)
    (rng : nat → list nat) (num_questions : Z) (difficulty : str)
    (topic : option str) (num_cards : Z) :
  let w := mk_world (init azure_client deployment model) sent in
  search query k w = (w, Raise (Exn "ValueError"))
  ∧ sample_chunks rng (chunks (self w)) = Ok []
  ∧ join [LF; LF] [] = []
  ∧ generate_quiz_questions rng num_questions difficulty topic w
    = (mk_world (self w)
         (sent ++
          [ChatCompletionsCreate deployment
             (quiz_messages (quiz_prompt num_questions difficulty topic []))
             (8 # 10)%Q 2000]),
       res_map Text
         (chat_completions_create azure_client deployment
            (quiz_messages (quiz_prompt num_questions difficulty topic []))
            (8 # 10)%Q 2000))
  ∧ generate_flashcards rng num_cards topic w
    = (mk_world (self w)
         (sent ++
          [ChatCompletionsCreate deployment
             (flashcard_messages (flashcard_prompt num_cards topic []))
             (7 # 10)%Q 2000]),
       res_map Text
         (chat_completions_create azure_client deployment
            (flashcard_messages (flashcard_prompt num_cards topic []))
            (7 # 10)%Q 2000)).
Proof.
  intros w. split; [reflexivity |]. split; [reflexivity |].
  split; [reflexivity |].
  unfold generate_quiz_questions, generate_flashcards. run. simpl.
  split.
  - by destruct (chat_completions_create _ _ _ _ _).
  - by destruct (chat_completions_create _ _ _ _ _).
Qed.

End Retrieval.

(** * Further properties of the code *)

(** ** Text normalisation and sentence splitting *)

Section NormalisationShape.
Import DocumentProcessor.

Lemma visible_app (a b : str) : visible (a ++ b) = visible a ++ visible b.
Proof. apply List.filter_app. Qed.

Lemma non_space_app (a b : str) :
  non_space (a ++ b) = non_space a ++ non_space b.
Proof. apply List.filter_app. Qed.

Lemma non_space_blank (a : str) :
  Forall (λ c, isspace c = true) a → non_space a = [].
Proof.
  induction 1 as [|c r Hc _ IH]; simpl; [done |]. by rewrite Hc.
Qed.

Lemma visible_blank (a : str) :
  Forall (λ c, isspace c = true) a → visible a = [].
Proof.
  induction 1 as [|c r Hc _ IH]; simpl; [done |]. by rewrite Hc.
Qed.

(** Stripping removes whitespace only. *)
Lemma strip_decompose (s : str) :
  ∃ a b, s = a ++ strip s ++ b
         ∧ Forall (λ c, isspace c = true) a
         ∧ Forall (λ c, isspace c = true) b.
Proof.
  destruct (lstrip_suffix s) as (a & Ha & Hwa).
  destruct (rstrip_prefix (lstrip s)) as (b & Hb & Hwb).
  exists a, b. split; [| done]. unfold strip. by rewrite <- Hb.
Qed.

Lemma non_space_strip (s : str) : non_space (strip s) = non_space s.
Proof.
  destruct (strip_decompose s) as (a & b & Hs & Ha & Hb).
  rewrite Hs at 2. rewrite !non_space_app.
  by rewrite (non_space_blank a Ha), (non_space_blank b Hb), app_nil_r.
Qed.

Lemma visible_strip (s : str) : visible (strip s) = visible s.
Proof.
  destruct (strip_decompose s) as (a & b & Hs & Ha & Hb).
  rewrite Hs at 2. rewrite !visible_app.
  by rewrite (visible_blank a Ha), (visible_blank b Hb), app_nil_r.
Qed.

Lemma visible_remove_nul (s : str) : visible (remove_char NUL s) = visible s.
Proof.
  unfold visible, remove_char. induction s as [|c r IH]; simpl; [done |].
  destruct (c =? NUL)%N eqn:Hc; simpl.
  - by rewrite IH, andb_false_r.
  - rewrite Hc, IH. done.
Qed.

Lemma visible_re_sub_ws (s run : str) :
  visible (re_sub_run isspace 1 [SP] run s) = visible s.
Proof.
  revert run. induction s as [|c r IH]; intros run; simpl.
  - by destruct (flush_run_one run) as [-> | ->].
  - destruct (isspace c) eqn:Hc; simpl; [apply IH |].
    rewrite visible_app. simpl. rewrite Hc. simpl.
    rewrite IH. by destruct (flush_run_one run) as [-> | ->].
Qed.

Lemma remove_char_gone (ch : char) (s : str) :
  Forall (λ c, c ≠ ch) (remove_char ch s).
Proof.
  unfold remove_char. induction s as [|c r IH]; simpl; [done |].
  destruct (N.eqb_spec c ch); simpl; [done | by constructor].
Qed.

Lemma strip_no_trail (s : str) : no_lead (rev (strip s)).
Proof.
  unfold strip, rstrip. rewrite rev_involutive. apply lstrip_no_lead.
Qed.

Lemma strip_no_lead (s : str) : no_lead (strip s).
Proof. unfold strip. apply rstrip_no_lead, lstrip_no_lead. Qed.

Lemma clean_text_chars (text : str) :
  Forall (λ c, c ≠ NUL ∧ (isspace c = true → c = SP)) (clean_text text).
Proof.
  rewrite clean_text_unfold.
  apply strip_Forall. apply Forall_and. split.
  - apply remove_char_gone.
  - apply remove_char_Forall, ws_collapsed_Forall, re_sub_ws_collapsed.
Qed.

Lemma clean_text_no_lead (text : str) : no_lead (clean_text text).
Proof. rewrite clean_text_unfold. apply strip_no_lead. Qed.

Lemma visible_clean_text (text : str) :
  visible (clean_text text) = visible text.
Proof.
  rewrite clean_text_unfold, visible_strip, visible_remove_nul.
  apply visible_re_sub_ws.
Qed.

(** The normalised text holds no NUL, no whitespace other than U+0020, and
    neither starts nor ends with whitespace. *)
Theorem clean_text_shape (text : str) :
  Forall (λ c, c ≠ NUL ∧ (isspace c = true → c = SP)) (clean_text text)
  ∧ no_lead (clean_text text)
  ∧ no_lead (rev (clean_text text)).
Proof.
  split; [apply clean_text_chars |]. split; [apply clean_text_no_lead |].
  rewrite clean_text_unfold. apply strip_no_trail.
Qed.

(** Normalisation keeps every character that is neither whitespace nor NUL,
    in its order. *)
Theorem clean_text_keeps_visible (text : str) :
  visible (clean_text text) = visible text.
Proof. apply visible_clean_text. Qed.

(** On a text without NUL the normalised text has single spaces only: every
    whitespace character is a space followed by a character that is not
    whitespace. *)
Theorem clean_text_single_spaces (text : str) :
  Forall (λ c, c ≠ NUL) text → ws_collapsed (clean_text text).
Proof.
  intros Hnul. rewrite clean_text_unfold.
  rewrite remove_char_absent
    by (apply re_sub_ws_Forall; [discriminate | done]).
  apply strip_ws_collapsed, re_sub_ws_collapsed.
Qed.

Lemma clean_text_single_spaces_witness :
  ws_collapsed (clean_text ([9%N; LF] ++ lit "a   b" ++ [LF; LF] ++ lit "c ")).
Proof.
  apply clean_text_single_spaces.
  repeat constructor; discriminate.
Defined.

(** A text made of whitespace and NUL characters only is normalised to the
    empty string. *)
Lemma clean_text_blank (text : str) :
  visible text = [] → clean_text text = [].
Proof.
  intros Hv. pose proof (visible_clean_text text) as Hk.
  rewrite Hv in Hk.
  pose proof (clean_text_chars text) as Hsh.
  pose proof (clean_text_no_lead text) as Hlead.
  destruct (clean_text text) as [|c r]; [done |].
  simpl in Hlead. apply Forall_cons in Hsh as [[Hc _] _].
  unfold visible in Hk. simpl in Hk. rewrite Hlead in Hk. simpl in Hk.
  destruct (N.eqb_spec c NUL); [done | discriminate Hk].
Qed.

End NormalisationShape.

Section Sentences.
Import DocumentProcessor.

Lemma terminal_not_space (c : char) : is_terminal c = true → isspace c = false.
Proof.
  unfold is_terminal. intros H.
  apply orb_true_iff in H as [H | H];
    [apply orb_true_iff in H as [H | H] |];
    apply N.eqb_eq in H; subst; reflexivity.
Qed.

(** The pieces of the split: all but the last end with a sentence-ending
    character, and together they hold the text without the separators. *)
Lemma re_split_pieces (s : str) (in_sep : bool) (piece : str) :
  ∃ init final,
    re_split_sentences in_sep piece s = init ++ [final]
    ∧ Forall (λ p, ends_with_terminal p = true) init
    ∧ non_space (concat (init ++ [final])) = non_space (piece ++ s).
Proof.
  revert in_sep piece. induction s as [|c r IH]; intros in_sep piece; simpl.
  - exists [], piece. simpl. by rewrite !app_nil_r.
  - assert (∀ b, ∃ init final,
        re_split_sentences b (piece ++ [c]) r = init ++ [final]
        ∧ Forall (λ p, ends_with_terminal p = true) init
        ∧ non_space (concat (init ++ [final])) = non_space (piece ++ c :: r))
      as Hkeep.
    { intros b. destruct (IH b (piece ++ [c])) as (init & final & -> & Hi & Hn).
      exists init, final. rewrite <- app_assoc in Hn. done. }
    destruct (isspace c) eqn:Hc; [| apply Hkeep].
    assert (non_space (piece ++ c :: r) = non_space (piece ++ r)) as Hskip.
    { rewrite !non_space_app. simpl. by rewrite Hc. }
    destruct in_sep.
    + destruct (IH true piece) as (init & final & -> & Hi & Hn).
      exists init, final. by rewrite Hskip.
    + destruct (ends_with_terminal piece) eqn:Ht; [| apply Hkeep].
      destruct (IH true []) as (init & final & -> & Hi & Hn).
      exists (piece :: init), final. split; [done |]. split.
      * by constructor.
      * rewrite Hskip. simpl in *. rewrite !non_space_app. by rewrite Hn.
Qed.

Lemma strip_keeps_terminal (s : str) :
  ends_with_terminal s = true →
  ends_with_terminal (strip s) = true ∧ strip s ≠ [].
Proof.
  unfold ends_with_terminal. intros H.
  destruct (last s) as [c|] eqn:Hl; [| done].
  apply last_Some in Hl as [s' ->].
  pose proof (terminal_not_space c H) as Hc.
  destruct (strip_decompose (s' ++ [c])) as (a & b & Hs & Ha & Hb).
  assert (b = []) as ->.
  { destruct b as [|x b' _] using rev_ind; [done |].
    rewrite !app_assoc in Hs. apply app_inj_tail in Hs as [_ ->].
    apply Forall_app in Hb as [_ Hb]. apply Forall_cons in Hb as [Hb _].
    congruence. }
  rewrite app_nil_r in Hs.
  destruct (strip (s' ++ [c])) as [|y t _] eqn:Hst using rev_ind.
  - rewrite app_nil_r in Hs. rewrite <- Hs in Ha.
    apply Forall_app in Ha as [_ Ha]. apply Forall_cons in Ha as [Ha _].
    congruence.
  - rewrite app_assoc in Hs. apply app_inj_tail in Hs as [_ ->].
    rewrite last_snoc. split; [done |]. by destruct t.
Qed.

(** Every sentence is non-empty and has no whitespace at either end; every
    sentence but possibly the last ends with [.], [!] or [?]; and the
    sentences together hold the non-whitespace characters of the text, in
    order. *)
Theorem split_into_sentences_shape (text : str) :
  Forall (λ s, s ≠ [] ∧ strip s = s) (split_into_sentences text)
  ∧ (∃ init rest,
       split_into_sentences text = init ++ rest
       ∧ (length rest ≤ 1)%nat
       ∧ Forall (λ s, ends_with_terminal s = true) init)
  ∧ non_space (concat (split_into_sentences text)) = non_space text.
Proof.
  unfold split_into_sentences.
  destruct (re_split_pieces text false []) as (init & final & -> & Hi & Hn).
  simpl in Hn.
  assert (List.filter
            (λ s, match strip s with [] => false | _ => true end) init
          = init) as Hkeep.
  { clear Hn. induction Hi as [|p l Hp _ IH]; simpl; [done |].
    destruct (strip_keeps_terminal p Hp) as [_ Hne].
    destruct (strip p); [done |]. by rewrite IH. }
  rewrite List.filter_app, Hkeep, map_app.
  split; [| split].
  - apply Forall_app. split.
    + apply Forall_forall. intros x Hx. apply list_elem_of_In in Hx.
      apply in_map_iff in Hx as (p & <- & Hp).
      rewrite Forall_forall in Hi. apply list_elem_of_In in Hp.
      destruct (strip_keeps_terminal p (Hi p Hp)) as [_ Hne].
      split; [done | apply strip_idem].
    + simpl. destruct (strip final) eqn:Hf; simpl; [done |].
      constructor; [| done]. rewrite Hf. split; [done |].
      rewrite <- Hf. apply strip_idem.
  - exists (List.map strip init),
           (List.map strip
              (List.filter
                 (λ s, match strip s with [] => false | _ => true end)
                 [final])).
    split; [done |]. split.
    + simpl. destruct (strip final); simpl; lia.
    + clear Hkeep Hn. induction Hi as [|p l Hp _ IH]; simpl; [done |].
      constructor; [| done]. by destruct (strip_keeps_terminal p Hp).
  - rewrite <- Hn. rewrite !concat_app, !non_space_app. f_equal.
    + clear. induction init as [|p l IH]; simpl; [done |].
      by rewrite !non_space_app, non_space_strip, IH.
    + pose proof (non_space_strip final) as Hs.
      cbn [List.filter]. destruct (strip final) eqn:Hf;
        cbn [List.map concat]; rewrite ?app_nil_r.
      * by rewrite <- Hs.
      * rewrite Hf. exact Hs.
Qed.

End Sentences.

(** ** The chunks *)

Section ChunkShape.
Import DocumentProcessor.

Lemma last_index_lt (ch : char) (l : str) (p : nat) :
  last_index ch l = Some p → (p < length l)%nat.
Proof.
  revert p. induction l as [|c r IH]; intros p; simpl; [done |].
  destruct (last_index ch r) as [q|].
  - intros [= <-]. specialize (IH q eq_refl). lia.
  - destruct (c =? ch)%N; [intros [= <-]; lia | done].
Qed.

Lemma slice_length {A} (l : list A) (i j : Z) :
  Z.of_nat (length (slice l i j))
  <= Z.max 0 (slice_bound (Z.of_nat (length l)) j
              - slice_bound (Z.of_nat (length l)) i).
Proof. unfold slice. rewrite length_take. lia. Qed.

(** [rfind] answers -1 or a position before the end bound. *)
Lemma rfind_lt (s : str) (ch : char) (i j : Z) :
  0 <= j → rfind s ch i j < j.
Proof.
  intros Hj. unfold rfind.
  destruct (last_index ch (slice s i j)) as [p|] eqn:Hp; [| lia].
  apply last_index_lt in Hp. pose proof (slice_length s i j) as Hl.
  unfold len. unfold slice_bound in *.
  destruct (Z.ltb_spec j 0); [lia |].
  destruct (Z.ltb_spec i 0); lia.
Qed.

(** A window is longer than half of [chunk_size] and no longer than
    [chunk_size]. *)
Lemma window_end_bounds (self : t) (text : str) (start : Z) :
  0 < chunk_size self → 0 <= start →
  start + chunk_size self / 2 < window_end self text start
  ∧ window_end self text start <= start + chunk_size self.
Proof.
  intros Hs H0. unfold window_end. cbv zeta.
  pose proof (rfind_lt text 46%N start (start + chunk_size self)).
  pose proof (rfind_lt text 33%N start (start + chunk_size self)).
  pose proof (rfind_lt text 63%N start (start + chunk_size self)).
  assert (chunk_size self / 2 < chunk_size self)
    by (apply Z.div_lt; lia).
  destruct (start + chunk_size self <? len text); [| lia].
  match goal with |- context [?x >? ?y] => destruct (Z.gtb_spec x y) end; lia.
Qed.

Lemma strip_length (s : str) : len (strip s) <= len s.
Proof.
  destruct (strip_decompose s) as (a & b & Hs & _).
  unfold len. rewrite Hs at 2. rewrite !length_app. lia.
Qed.

Lemma chunk_data_chunk_id (t : str) (id a b : Z) :
  chunk_data t id a b !! lit "chunk_id" = Some (VInt id).
Proof.
  unfold chunk_data.
  rewrite !lookup_insert_ne by (by apply key_ne).
  apply lookup_insert_eq.
Qed.

Lemma chunk_data_chunk_size (t : str) (id a b : Z) :
  chunk_data t id a b !! lit "chunk_size" = Some (VInt (len t)).
Proof. unfold chunk_data. apply lookup_insert_eq. Qed.

Lemma dict_update_absent (d meta : Dict) (k : str) :
  meta !! k = None → dict_update d (segment_items meta) !! k = d !! k.
Proof.
  intros Hk. unfold dict_update, segment_items.
  apply lookup_union_r. apply map_lookup_filter_None. by left.
Qed.

(** With well-typed segments that leave the keys of a chunk alone,
    [emit_chunk] skips an empty chunk or appends one chunk with the five
    fields of the window. *)
Lemma emit_chunk_fields (metadata : option (list Dict)) (chunk_text : str)
    (a b : Z) (chunks : list Dict) (id : Z) :
  segments_typed metadata → segments_keep_keys metadata →
  ∃ chunks' id',
    emit_chunk metadata chunk_text a b chunks id = Ok (chunks', id')
    ∧ (chunk_text = [] ∧ chunks' = chunks ∧ id' = id
       ∨ chunk_text ≠ [] ∧ id' = id + 1 ∧ ∃ d, chunks' = chunks ++ [d]
           ∧ d !! lit "char_start" = Some (VInt a)
           ∧ d !! lit "char_end" = Some (VInt b)
           ∧ d !! lit "text" = Some (VStr chunk_text)
           ∧ d !! lit "chunk_id" = Some (VInt id)
           ∧ d !! lit "chunk_size" = Some (VInt (len chunk_text))).
Proof.
  intros Ht Hk. unfold emit_chunk.
  destruct chunk_text as [|c0 r0]; [by eexists _, _; split; [| left] |].
  set (t := c0 :: r0).
  pose proof (chunk_data_char_start t id a b) as Hs.
  pose proof (chunk_data_char_end t id a b) as He.
  pose proof (chunk_data_text t id a b) as Hx.
  pose proof (chunk_data_chunk_id t id a b) as Hi.
  pose proof (chunk_data_chunk_size t id a b) as Hz.
  assert (∃ d : Dict,
    match metadata with
    | Some ((_ :: _) as entries) =>
        res_bind (find_segment a entries) (λ found,
          match found with
          | Some meta =>
              Ok (dict_update (chunk_data t id a b) (segment_items meta))
          | None => Ok (chunk_data t id a b)
          end)
    | _ => Ok (chunk_data t id a b)
    end = Ok d
    ∧ d !! lit "char_start" = Some (VInt a)
    ∧ d !! lit "char_end" = Some (VInt b)
    ∧ d !! lit "text" = Some (VStr t)
    ∧ d !! lit "chunk_id" = Some (VInt id)
    ∧ d !! lit "chunk_size" = Some (VInt (len t))) as (d & -> & Hd).
  { destruct metadata as [[|m0 ms]|]; [by eexists | | by eexists].
    simpl in Ht, Hk.
    destruct (find_segment_typed a (m0 :: ms) Ht) as [r [-> Hr]]. simpl.
    destruct r as [meta|]; [| by eexists].
    rewrite Forall_forall in Hk. destruct (Hk meta Hr) as (K1 & K2 & K3).
    eexists. split; [reflexivity |].
    rewrite (dict_update_bound _ _ (lit "char_start")) by (by left).
    rewrite (dict_update_bound _ _ (lit "char_end")) by (by right; left).
    by rewrite !dict_update_absent. }
  simpl. eexists _, _. split; [reflexivity |]. right.
  split; [done |]. split; [done |]. by exists d.
Qed.

Section Invariant.

Variable self : t.
Variable text : str.
Variable metadata : option (list Dict).

(** A property of [(start, chunks, chunk_id)] that every iteration keeps
    holds of the state in which the loop returns. *)
Lemma chunk_loop_invariant (Inv : Z → list Dict → Z → Prop) :
  (∀ start chunks id chunks' id',
     0 <= start < len text →
     Inv start chunks id →
     emit_chunk metadata
       (strip (slice text start (window_end self text start)))
       start (window_end self text start) chunks id = Ok (chunks', id') →
     Inv (window_end self text start - chunk_overlap self) chunks' id') →
  ∀ fuel start chunks id out,
    0 <= start →
    Inv start chunks id →
    chunk_loop self fuel text metadata start chunks id = Some (Ok out) →
    ∃ start' id', Inv start' out id'.
Proof.
  intros Hstep. induction fuel as [|fuel IH];
    intros start chunks id out H0 Hinv Hrun; [done |].
  rewrite chunk_loop_S in Hrun.
  destruct (Z.ltb_spec start (len text)) as [Hlt | Hge].
  - destruct (emit_chunk metadata _ start _ chunks id) as [[cs n]|e] eqn:Hemit;
      [| done].
    pose proof (Hstep _ _ _ _ _ (conj H0 Hlt) Hinv Hemit) as Hnext.
    destruct (Z.leb_spec (window_end self text start - chunk_overlap self) 0)
      as [Hle | Hpos]; simpl in Hrun.
    + injection Hrun as <-. eauto.
    + destruct (window_end self text start >=? len text).
      * injection Hrun as <-. eauto.
      * eapply IH; [| exact Hnext | exact Hrun]. lia.
  - injection Hrun as <-. eauto.
Qed.

End Invariant.

(** A text without visible characters gives no chunk, whatever the
    configuration and the segments are. *)
Theorem create_chunks_blank (self : t) (fuel : nat) (text : str)
    (metadata : option (list Dict)) :
  visible text = [] →
  create_chunks self (S fuel) text metadata = Some (Ok []).
Proof.
  intros Hv. unfold create_chunks. by rewrite (clean_text_blank text Hv).
Qed.

Lemma create_chunks_blank_witness :
  create_chunks (mk 1000 200) 1 ([SP; LF; NUL; 9%N; SP]) None = Some (Ok []).
Proof.
  apply (create_chunks_blank (mk 1000 200) 0 [SP; LF; NUL; 9%N; SP] None).
  reflexivity.
Defined.

Lemma chunks_well_formed (self : t) (fuel : nat) (text : str)
    (metadata : option (list Dict)) (chunks : list Dict) :
  0 < chunk_size self →
  segments_typed metadata → segments_keep_keys metadata →
  create_chunks self fuel text metadata = Some (Ok chunks) →
  Forall (well_formed_chunk self (clean_text text)) chunks.
Proof.
  intros Hs Ht Hk Hrun. unfold create_chunks in Hrun.
  destruct (chunk_loop_invariant self (clean_text text) metadata
              (λ _ cs _, Forall (well_formed_chunk self (clean_text text)) cs))
    with (fuel := fuel) (start := 0) (chunks := @nil Dict) (id := 0)
         (out := chunks) as (_ & _ & H); try done.
  intros start cs id cs' id' Hstart Hinv Hemit.
  destruct (emit_chunk_fields metadata
              (strip (slice (clean_text text) start
                        (window_end self (clean_text text) start)))
              start (window_end self (clean_text text) start) cs id Ht Hk)
    as (cs2 & n & Heq & Hcase).
  rewrite Hemit in Heq. injection Heq as <- <-.
  destruct Hcase as [(_ & -> & _) | (Hne & _ & d & -> & D1 & D2 & D3 & _ & D5)];
    [done |].
  apply Forall_app. split; [done |]. constructor; [| done].
  destruct (window_end_bounds self (clean_text text) start Hs) as [Hlo Hhi];
    [lia |].
  eexists start, _, _. repeat split; try done; try lia.
  etransitivity; [apply strip_length |].
  pose proof (slice_length (clean_text text) start
                (window_end self (clean_text text) start)) as Hl.
  unfold len in *. unfold slice_bound in Hl.
  destruct (Z.ltb_spec start 0); [lia |].
  assert (0 <= chunk_size self / 2) by (apply Z.div_pos; lia).
  destruct (Z.ltb_spec (window_end self (clean_text text) start) 0); lia.
Qed.

(** Every chunk that [create_chunks] returns is a stripped, non-empty window
    of the normalised text of at most [chunk_size] characters, with
    [chunk_size] holding its length. *)
Theorem create_chunks_well_formed (self : t) (fuel : nat) (text : str)
    (metadata : option (list Dict)) (chunks : list Dict) :
  0 < chunk_size self →
  segments_typed metadata → segments_keep_keys metadata →
  create_chunks self fuel text metadata = Some (Ok chunks) →
  Forall (well_formed_chunk self (clean_text text)) chunks.
Proof. apply chunks_well_formed. Qed.

Lemma create_chunks_well_formed_witness :
  Forall
    (well_formed_chunk (mk 10 2)
       (clean_text (lit "Hello world. This is a test! Is it working? yes")))
    (returned
       (create_chunks (mk 10 2) 50
          (lit "Hello world. This is a test! Is it working? yes") None)).
Proof.
  apply (create_chunks_well_formed (mk 10 2) 50
           (lit "Hello world. This is a test! Is it working? yes") None).
  - reflexivity.
  - exact I.
  - exact I.
  - vm_compute. reflexivity.
Defined.

Lemma ids_from_snoc (n : Z) (chunks : list Dict) (d : Dict) :
  ids_from n chunks →
  d !! lit "chunk_id" = Some (VInt (n + len chunks)) →
  ids_from n (chunks ++ [d]).
Proof.
  revert n. induction chunks as [|c r IH]; intros n; simpl.
  - intros _ Hd. unfold len in Hd. simpl in Hd.
    by rewrite Z.add_0_r in Hd.
  - intros [Hc Hr] Hd. split; [done |]. apply IH; [done |].
    rewrite Hd. do 2 f_equal. unfold len. simpl length. lia.
Qed.

(** The chunk ids are the positions in the returned list: 0, 1, 2, ... *)
Theorem create_chunks_ids (self : t) (fuel : nat) (text : str)
    (metadata : option (list Dict)) (chunks : list Dict) :
  segments_typed metadata → segments_keep_keys metadata →
  create_chunks self fuel text metadata = Some (Ok chunks) →
  ids_from 0 chunks.
Proof.
  intros Ht Hk Hrun. unfold create_chunks in Hrun.
  destruct (chunk_loop_invariant self (clean_text text) metadata
              (λ _ cs id, ids_from 0 cs ∧ id = len cs))
    with (fuel := fuel) (start := 0) (chunks := @nil Dict) (id := 0)
         (out := chunks) as (_ & _ & H & _); try done.
  intros start cs id cs' id' Hstart [Hinv ->] Hemit.
  destruct (emit_chunk_fields metadata
              (strip (slice (clean_text text) start
                        (window_end self (clean_text text) start)))
              start (window_end self (clean_text text) start) cs (len cs)
              Ht Hk) as (cs2 & n & Heq & Hcase).
  rewrite Hemit in Heq. injection Heq as <- <-.
  destruct Hcase as [(_ & -> & ->) | (_ & -> & d & -> & _ & _ & _ & D4 & _)];
    [done |].
  split; [by apply ids_from_snoc |].
  unfold len. rewrite length_app. simpl. lia.
Qed.

Lemma create_chunks_ids_witness :
  ids_from 0
    (returned
       (create_chunks (mk 10 2) 50
          (lit "Hello world. This is a test! Is it working? yes") None)).
Proof.
  apply (create_chunks_ids (mk 10 2) 50
           (lit "Hello world. This is a test! Is it working? yes") None).
  - exact I.
  - exact I.
  - vm_compute. reflexivity.
Defined.

Lemma starts_above_step (a s s' : Z) (chunks : list Dict) (d : Dict) :
  starts_above a (chunks ++ [start_probe s]) →
  d !! lit "char_start" = Some (VInt s) → s < s' →
  starts_above a (chunks ++ [d] ++ [start_probe s']).
Proof.
  revert a. induction chunks as [|c r IH]; intros a; simpl.
  - intros (b & Hb & Hab & _) Hd Hs.
    unfold start_probe in Hb. rewrite lookup_singleton_eq in Hb.
    injection Hb as <-.
    exists s. split; [done |]. split; [done |].
    exists s'. split; [apply lookup_singleton_eq | done].
  - intros (b & Hb & Hab & Hr) Hd Hs. exists b. eauto.
Qed.

Lemma starts_above_move (a s s' : Z) (chunks : list Dict) :
  starts_above a (chunks ++ [start_probe s]) → s < s' →
  starts_above a (chunks ++ [start_probe s']).
Proof.
  revert a. induction chunks as [|c r IH]; intros a; simpl.
  - intros (b & Hb & Hab & _) Hs.
    unfold start_probe in Hb. rewrite lookup_singleton_eq in Hb.
    injection Hb as <-.
    exists s'. split; [apply lookup_singleton_eq |]. split; [lia | done].
  - intros (b & Hb & Hab & Hr) Hs. exists b. eauto.
Qed.

Lemma starts_above_init (a : Z) (chunks more : list Dict) :
  starts_above a (chunks ++ more) → starts_above a chunks.
Proof.
  revert a. induction chunks as [|c r IH]; intros a; simpl; [done |].
  intros (b & Hb & Hab & Hr). exists b. eauto.
Qed.

(** When the overlap is at most half a window (plus one), the chunks come in
    strictly ascending order of [char_start], the first at 0 or later. *)
Theorem create_chunks_ascending (self : t) (fuel : nat) (text : str)
    (metadata : option (list Dict)) (chunks : list Dict) :
  0 < chunk_size self →
  0 <= chunk_overlap self < chunk_size self →
  chunk_overlap self <= chunk_size self / 2 + 1 →
  segments_typed metadata →
  create_chunks self fuel text metadata = Some (Ok chunks) →
  starts_above (-1) chunks.
Proof.
  intros Hs [Ho1 Ho2] Hh Ht Hrun. unfold create_chunks in Hrun.
  destruct (chunk_loop_invariant self (clean_text text) metadata
              (λ start cs _, starts_above (-1) (cs ++ [start_probe start])))
    with (fuel := fuel) (start := 0) (chunks := @nil Dict) (id := 0)
         (out := chunks) as (s' & _ & H); try done.
  - intros start cs id cs' id' Hstart Hinv Hemit.
    assert (start + chunk_overlap self
            < window_end self (clean_text text) start) as Hp
      by (by apply window_end_progress).
    destruct (emit_chunk_typed metadata
                (strip (slice (clean_text text) start
                          (window_end self (clean_text text) start)))
                start (window_end self (clean_text text) start) cs id Ht)
      as (cs2 & n & Heq & Hcase).
    rewrite Hemit in Heq. injection Heq as <- <-.
    destruct Hcase as [(_ & ->) | (_ & d & -> & D1 & _)].
    + eapply starts_above_move; [exact Hinv | lia].
    + rewrite <- app_assoc.
      eapply starts_above_step; [exact Hinv | exact D1 | lia].
  - simpl. exists 0. split; [apply lookup_singleton_eq | done].
  - by apply starts_above_init in H.
Qed.

Lemma create_chunks_ascending_witness :
  starts_above (-1)
    (returned
       (create_chunks (mk 10 2) 50
          (lit "Hello world. This is a test! Is it working? yes") None)).
Proof.
  apply (create_chunks_ascending (mk 10 2) 50
           (lit "Hello world. This is a test! Is it working? yes") None).
  - reflexivity.
  - split; [discriminate | reflexivity].
  - vm_compute. discriminate.
  - exact I.
  - vm_compute. reflexivity.
Defined.

End ChunkShape.

(** ** Extraction and the processing pipeline *)

Section ExtractionFacts.
Import DocumentProcessor Extraction.

Lemma slice_init {A} (l : list A) (x : A) : slice (l ++ [x]) 0 (-1) = l.
Proof.
  unfold slice, slice_bound. rewrite length_app. simpl length.
  change (0 <? 0) with false. change (-1 <? 0) with true. cbv iota.
  replace (Z.to_nat (Z.min 0 (Z.of_nat (length l + 1)))) with O by lia.
  replace (Z.to_nat (Z.max 0 (-1 + Z.of_nat (length l + 1))
                     - Z.min 0 (Z.of_nat (length l + 1))))
    with (length l) by lia.
  simpl. apply take_app_length.
Qed.

Lemma join_snoc (sep : str) (parts : list str) (p : str) :
  parts ≠ [] →
  RAGSystem.join sep (parts ++ [p]) = RAGSystem.join sep parts ++ sep ++ p.
Proof.
  induction parts as [|q r IH]; [done |]. intros _.
  destruct r as [|q' r']; [done |].
  change (RAGSystem.join sep ((q :: q' :: r') ++ [p]))
    with (q ++ sep ++ RAGSystem.join sep ((q' :: r') ++ [p])).
  rewrite IH by done.
  change (RAGSystem.join sep (q :: q' :: r'))
    with (q ++ sep ++ RAGSystem.join sep (q' :: r')).
  by rewrite <- !app_assoc.
Qed.

(** The length of a joined text: the parts and one separator between any
    two of them. *)
Lemma join_length (sep : str) (parts : list str) :
  len (RAGSystem.join sep parts)
  = len (concat parts) + len sep * Z.max 0 (len parts - 1).
Proof.
  induction parts as [|q r IH]; [unfold len; simpl; lia |].
  destruct r as [|q' r'].
  - simpl. unfold len. simpl. rewrite app_nil_r. lia.
  - change (RAGSystem.join sep (q :: q' :: r'))
      with (q ++ sep ++ RAGSystem.join sep (q' :: r')).
    unfold len in *. simpl concat. rewrite !length_app, !Nat2Z.inj_add, IH.
    simpl concat. rewrite length_app. simpl length. lia.
Qed.

Lemma join_empty_sep (parts : list str) :
  RAGSystem.join [] parts = concat parts.
Proof.
  induction parts as [|q r IH]; [done |].
  destruct r as [|q' r']; [simpl; by rewrite app_nil_r |].
  change (RAGSystem.join [] (q :: q' :: r'))
    with (q ++ [] ++ RAGSystem.join [] (q' :: r')).
  by rewrite IH.
Qed.

Lemma chained_snoc (a n n' : Z) (segments : list Dict) (seg : Dict) :
  chained a segments n →
  seg !! lit "char_start" = Some (VInt n) →
  seg !! lit "char_end" = Some (VInt n') → n < n' →
  chained a (segments ++ [seg]) n'.
Proof.
  revert a. induction segments as [|s r IH]; intros a; simpl.
  - intros -> Hs He Hlt. by exists n'.
  - intros (b & Hs0 & He0 & Hlt0 & Hr) Hs He Hlt. exists b. eauto.
Qed.

Lemma docx_segment_bounds (i : Z) (parts : list str) (p : str) :
  docx_segment i (parts ++ [p]) !! lit "char_start"
    = Some (VInt (len (RAGSystem.join paragraph_sep parts)))
  ∧ docx_segment i (parts ++ [p]) !! lit "char_end"
    = Some (VInt (len (RAGSystem.join paragraph_sep (parts ++ [p])))).
Proof.
  unfold docx_segment. rewrite slice_init. split.
  - rewrite lookup_insert_ne by (by apply key_ne). apply lookup_insert_eq.
  - apply lookup_insert_eq.
Qed.

Lemma join_grows (sep : str) (parts : list str) (p : str) :
  p ≠ [] → len (RAGSystem.join sep parts)
           < len (RAGSystem.join sep (parts ++ [p])).
Proof.
  intros Hp. destruct parts as [|q r].
  - simpl. destruct p; [done |]. unfold len. simpl. lia.
  - rewrite join_snoc by done. unfold len. rewrite !length_app.
    destruct p; [done |]. simpl length. lia.
Qed.

(** The loop over the paragraphs keeps the segments chained up to the length
    of the text joined so far, one segment per kept paragraph. *)
Lemma docx_loop_chained (paragraphs : list str) (i : Z) (parts : list str)
    (meta : list Dict) :
  chained 0 meta (len (RAGSystem.join paragraph_sep parts)) →
  ∃ parts' meta',
    docx_loop paragraphs i parts meta = (parts', meta')
    ∧ chained 0 meta' (len (RAGSystem.join paragraph_sep parts'))
    ∧ length meta' = (length meta
                      + length (List.filter nonblank paragraphs))%nat.
Proof.
  revert i parts meta. induction paragraphs as [|p rest IH];
    intros i parts meta Hc; simpl.
  - exists parts, meta. split; [done |]. split; [done | lia].
  - unfold nonblank at 1. destruct (strip p) as [|c0 r0] eqn:Hp.
    + apply IH. done.
    + destruct (docx_segment_bounds i parts (c0 :: r0)) as [Hs He].
      destruct (IH (i + 1) (parts ++ [c0 :: r0])
                  (meta ++ [docx_segment i (parts ++ [c0 :: r0])]))
        as (parts' & meta' & -> & Hc' & Hlen).
      * eapply chained_snoc; [exact Hc | exact Hs | exact He |].
        by apply join_grows.
      * exists parts', meta'. split; [done |]. split; [done |].
        rewrite Hlen, length_app. simpl. lia.
Qed.

(** The segments that [extract_text_from_docx] returns tile the text it
    returns: the first starts at 0, each starts where the one before ends,
    the last ends at [len(full_text)], and there is one per paragraph that
    is not blank. *)
Theorem docx_segments_tile_text (open_document : str → res (list str))
    (file_path : str) (paragraphs : list str) :
  open_document file_path = Ok paragraphs →
  ∃ full_text meta,
    extract_text_from_docx (Some open_document) file_path
      = Ok (full_text, meta)
    ∧ chained 0 meta (len full_text)
    ∧ length meta = length (List.filter nonblank paragraphs).
Proof.
  intros Hopen. unfold extract_text_from_docx. rewrite Hopen.
  destruct (docx_loop_chained paragraphs 0 [] []) as (parts & meta & -> & Hc & Hl);
    [done |].
  exists (RAGSystem.join paragraph_sep parts), meta. done.
Qed.

Lemma docx_segments_tile_text_witness :
  ∃ full_text meta,
    extract_text_from_docx
      (Some (λ _, Ok [lit " Title "; lit "  "; lit "Body text."; []]))
      (lit "notes.docx")
      = Ok (full_text, meta)
    ∧ chained 0 meta (len full_text)
    ∧ length meta
      = length (List.filter nonblank
                  [lit " Title "; lit "  "; lit "Body text."; []]).
Proof.
  apply (docx_segments_tile_text
           (λ _, Ok [lit " Title "; lit "  "; lit "Body text."; []])
           (lit "notes.docx")).
  reflexivity.
Defined.

Lemma pdf_segment_bounds (i n : Z) (parts : list str) (p : str) :
  pdf_segment i n (parts ++ [p]) !! lit "char_start"
    = Some (VInt (len (concat parts)))
  ∧ pdf_segment i n (parts ++ [p]) !! lit "char_end"
    = Some (VInt (len (concat (parts ++ [p])))).
Proof.
  unfold pdf_segment. rewrite slice_init, !join_empty_sep. split.
  - rewrite lookup_insert_ne by (by apply key_ne). apply lookup_insert_eq.
  - apply lookup_insert_eq.
Qed.

(** The loop over pages that all extract keeps the segments chained up to
    the length of the page texts put end to end. *)
Lemma pdf_loop_chained (texts : list str) (i n : Z) (parts : list str)
    (meta : list Dict) :
  chained 0 meta (len (concat parts)) → length meta = length parts →
  ∃ parts' meta',
    pdf_loop (List.map Ok texts) i n parts meta = Ok (parts', meta')
    ∧ chained 0 meta' (len (concat parts'))
    ∧ length meta' = length parts'.
Proof.
  revert i parts meta. induction texts as [|p rest IH];
    intros i parts meta Hc Hl; simpl.
  - by exists parts, meta.
  - destruct (strip p) as [|c0 r0] eqn:Hp; [by apply IH |].
    destruct (pdf_segment_bounds i n parts p) as [Hs He].
    apply IH.
    + eapply chained_snoc; [exact Hc | exact Hs | exact He |].
      rewrite concat_app. unfold len. rewrite length_app. simpl.
      rewrite app_nil_r. destruct p; [done |]. simpl. lia.
    + rewrite !length_app. simpl. lia.
Qed.

(** When PyPDF2 reads every page, the page offsets count the page texts put
    end to end, while the returned text has two newlines between any two
    pages: the last [char_end] falls short of [len(full_text)] by two
    characters per page break. *)
Theorem pdf_offsets_ignore_page_breaks
    (read_pages : str → res (list (res str)))
    (pdfminer_extract_text : option (str → res str)) (file_path : str)
    (texts : list str) :
  read_pages file_path = Ok (List.map Ok texts) →
  ∃ full_text meta last_end,
    extract_text_from_pdf (Some read_pages) pdfminer_extract_text file_path
      = Ok (full_text, meta)
    ∧ chained 0 meta last_end
    ∧ len full_text = last_end + 2 * Z.max 0 (len meta - 1).
Proof.
  intros Hread. unfold extract_text_from_pdf. rewrite Hread. simpl.
  destruct (pdf_loop_chained texts 0 (len (List.map Ok texts)) [] [])
    as (parts & meta & -> & Hc & Hl); [done | done |].
  exists (RAGSystem.join paragraph_sep parts), meta, (len (concat parts)).
  split; [done |]. split; [done |].
  rewrite join_length. unfold len, paragraph_sep. rewrite Hl. simpl length.
  lia.
Qed.

Lemma pdf_offsets_ignore_page_breaks_witness :
  ∃ full_text meta last_end,
    extract_text_from_pdf
      (Some (λ _, Ok (List.map Ok [lit "page one"; lit " "; lit "page three"])))
      None (lit "a.pdf")
      = Ok (full_text, meta)
    ∧ chained 0 meta last_end
    ∧ len full_text = last_end + 2 * Z.max 0 (len meta - 1).
Proof.
  apply (pdf_offsets_ignore_page_breaks
           (λ _, Ok (List.map Ok [lit "page one"; lit " "; lit "page three"]))
           None (lit "a.pdf") [lit "page one"; lit " "; lit "page three"]).
  reflexivity.
Defined.

Lemma pdf_loop_raises (pages : list (res str)) (e : exn) (i n : Z)
    (parts : list str) (meta : list Dict) :
  Raise e ∈ pages → ∃ e', pdf_loop pages i n parts meta = Raise e'.
Proof.
  revert i parts meta. induction pages as [|p rest IH];
    intros i parts meta Hin; [by apply elem_of_nil in Hin |].
  simpl. destruct p as [text | e0]; [| by eexists].
  apply elem_of_cons in Hin as [Heq | Hin]; [done |].
  destruct (strip text); by apply IH.
Qed.

(** When PyPDF2 fails, on opening the file or on any page, the pages read so
    far are dropped: the result is the text of pdfminer alone, as one
    segment, and an Exception when pdfminer is missing or fails too. *)
Theorem pdf_fallback (read_pages : str → res (list (res str)))
    (pdfminer_extract_text : option (str → res str)) (file_path : str) :
  ((∃ e, read_pages file_path = Raise e)
   ∨ (∃ pages e, read_pages file_path = Ok pages ∧ Raise e ∈ pages)) →
  extract_text_from_pdf (Some read_pages) pdfminer_extract_text file_path
  = match pdfminer_extract_text with
    | Some extract =>
        match extract file_path with
        | Ok text => Ok (text, [pdfminer_segment text])
        | Raise _ => Raise (Exn "Exception")
        end
    | None => Raise (Exn "Exception")
    end.
Proof.
  intros H. unfold extract_text_from_pdf.
  assert (∃ e', res_bind (read_pages file_path)
                  (λ pages, pdf_loop pages 0 (len pages) [] []) = Raise e')
    as [e' ->].
  { destruct H as [[e ->] | (pages & e & -> & Hin)]; [by eexists |].
    simpl. by apply (pdf_loop_raises pages e). }
  destruct pdfminer_extract_text as [extract|]; [| done].
  by destruct (extract file_path).
Qed.

Lemma pdf_fallback_witness :
  extract_text_from_pdf
    (Some (λ _, Ok [Ok (lit "page one"); Raise (Exn "PdfReadError")]))
    (Some (λ _, Ok (lit "whole text"))) (lit "a.pdf")
  = Ok (lit "whole text", [pdfminer_segment (lit "whole text")]).
Proof.
  apply (pdf_fallback
           (λ _, Ok [Ok (lit "page one"); Raise (Exn "PdfReadError")])
           (Some (λ _, Ok (lit "whole text"))) (lit "a.pdf")).
  right. exists [Ok (lit "page one"); Raise (Exn "PdfReadError")],
                (Exn "PdfReadError").
  split; [reflexivity |]. right. left.
Defined.

Lemma chunk_texts_ok (self : t) (text : str) (chunks : list Dict) :
  Forall (well_formed_chunk self text) chunks →
  ∃ texts,
    res_mapM chunk_text_of chunks = Ok texts
    ∧ Forall2 (λ v (c : Dict), ∃ s, v = VStr s ∧ s ≠ []
                 ∧ c !! lit "chunk_size" = Some (VInt (len s)))
        texts chunks.
Proof.
  induction 1 as [|c rest Hc _ (texts & IH & Hall)]; simpl; [by exists [] |].
  destruct Hc as (a & b & s0 & _ & _ & Ht & Hz & _ & _ & _ & Hne & _).
  unfold chunk_text_of at 1. rewrite Ht. simpl. rewrite IH. simpl.
  exists (VStr s0 :: texts). split; [done |]. constructor; [| done].
  by exists s0.
Qed.

Lemma average_size_ok (texts : list pyval) (chunks : list Dict) :
  Forall2 (λ v (c : Dict), ∃ s, v = VStr s ∧ s ≠ []
             ∧ c !! lit "chunk_size" = Some (VInt (len s)))
    texts chunks →
  ∃ avg, average_size texts = Ok avg.
Proof.
  intros H. unfold average_size. destruct texts as [|v0 r0]; [by eexists |].
  assert (∃ sizes, res_mapM value_len (v0 :: r0) = Ok sizes) as [sizes ->].
  { clear -H. induction H as [|v c vs cs (s0 & -> & _) _ [sizes IH]];
      simpl; [by eexists |].
    rewrite IH. by eexists. }
  by eexists.
Qed.

(** When the extractor succeeds with well-typed segments that leave the keys
    of a chunk alone, a call of [process_document] that returns raises
    nothing: the two lists it returns have one entry per chunk, every text
    is a non-empty string, and its metadata, without the text, records its
    length. *)
Theorem process_document_aligned (self : t) (fuel : nat)
    (extract_text : str → res (str * list Dict)) (suffix_lower : str → str)
    (file_path full_text : str) (segments : list Dict)
    (r : res (list pyval * list Dict * stats)) :
  0 < chunk_size self →
  extract_text file_path = Ok (full_text, segments) →
  segments_typed (Some segments) → segments_keep_keys (Some segments) →
  process_document self fuel extract_text suffix_lower file_path = Some r →
  ∃ texts metas st,
    r = Ok (texts, metas, st)
    ∧ total_chunks st = len texts
    ∧ total_characters st = len full_text
    ∧ Forall2 (λ v (m : Dict), ∃ s, v = VStr s ∧ s ≠ []
                 ∧ m !! lit "text" = None
                 ∧ m !! lit "chunk_size" = Some (VInt (len s)))
        texts metas.
Proof.
  intros Hs Hext Ht Hk Hrun. unfold process_document in Hrun.
  rewrite Hext in Hrun.
  destruct (create_chunks self fuel full_text (Some segments))
    as [[chunks | e] |] eqn:Hc; [| | done].
  - pose proof (chunks_well_formed _ _ _ _ _ Hs Ht Hk Hc) as Hwf.
    destruct (chunk_texts_ok _ _ _ Hwf) as (texts & Htexts & Hall).
    destruct (average_size_ok _ _ Hall) as [avg Havg].
    rewrite Htexts in Hrun. simpl in Hrun. rewrite Havg in Hrun.
    simpl in Hrun. injection Hrun as <-.
    eexists _, _, _. split; [reflexivity |]. simpl.
    split; [| split; [done |]].
    + unfold len. f_equal. symmetry. by eapply Forall2_length.
    + clear -Hall. induction Hall as [|v c vs cs (s0 & -> & Hne & Hz) _ IH];
        simpl; constructor; [| done].
      exists s0. split; [done |]. split; [done |].
      split; [apply lookup_delete_eq |].
      rewrite lookup_delete_ne by (by apply key_ne). done.
  - exfalso. unfold create_chunks in Hc.
    assert (∀ fuel start chunks id,
              chunk_loop self fuel (clean_text full_text) (Some segments)
                start chunks id ≠ Some (Raise e)) as Hno.
    { clear -Ht. induction fuel as [|fuel IH]; intros start chunks id; [done |].
      rewrite chunk_loop_S.
      destruct (start <? len (clean_text full_text)); [| done].
      destruct (emit_chunk_typed (Some segments)
                  (strip (slice (clean_text full_text) start
                            (window_end self (clean_text full_text) start)))
                  start (window_end self (clean_text full_text) start)
                  chunks id Ht) as (cs & n & -> & _).
      destruct (_ || _); [done | apply IH]. }
    by apply Hno in Hc.
Qed.

Lemma process_document_aligned_witness :
  ∃ texts metas st,
    match process_document (mk 1000 200) 20
            (λ _, Ok (lit "One. Two.", [])) (λ _, lit ".txt") (lit "a.txt")
    with Some r => r | None => Raise (Exn "") end
    = Ok (texts, metas, st)
    ∧ total_chunks st = len texts
    ∧ total_characters st = len (lit "One. Two.")
    ∧ Forall2 (λ v (m : Dict), ∃ s, v = VStr s ∧ s ≠ []
                 ∧ m !! lit "text" = None
                 ∧ m !! lit "chunk_size" = Some (VInt (len s)))
        texts metas.
Proof.
  apply (process_document_aligned (mk 1000 200) 20
           (λ _, Ok (lit "One. Two.", [])) (λ _, lit ".txt") (lit "a.txt")
           (lit "One. Two.") []).
  - reflexivity.
  - reflexivity.
  - constructor.
  - constructor.
  - vm_compute. reflexivity.
Defined.

(** A document whose text has no visible character gives no chunk: both
    lists are empty, the statistics count zero chunks with an average size
    of 0, and nothing is raised. *)
Theorem process_document_blank (self : t) (fuel : nat)
    (extract_text : str → res (str * list Dict)) (suffix_lower : str → str)
    (file_path full_text : str) (segments : list Dict) :
  extract_text file_path = Ok (full_text, segments) →
  visible full_text = [] →
  process_document self (S fuel) extract_text suffix_lower file_path
  = Some (Ok ([], [],
              mk_stats (len full_text) 0 0%Q (suffix_lower file_path)
                (len segments))).
Proof.
  intros Hext Hv. unfold process_document, create_chunks. rewrite Hext.
  by rewrite (clean_text_blank full_text Hv).
Qed.

Lemma process_document_blank_witness :
  process_document (mk 1000 200) 1
    (λ _, Ok ([LF; LF; SP], [])) (λ _, lit ".txt") (lit "a.txt")
  = Some (Ok ([], [],
              mk_stats (len [LF; LF; SP]) 0 0%Q (lit ".txt") (len (@nil Dict)))).
Proof.
  apply (process_document_blank (mk 1000 200) 0
           (λ _, Ok ([LF; LF; SP], [])) (λ _, lit ".txt") (lit "a.txt")
           [LF; LF; SP] []).
  - reflexivity.
  - reflexivity.
Defined.

End ExtractionFacts.

(** ** Persistence *)

Section Persistence.
Import Numpy Faiss RAGSystem Demo.

Ltac run :=
  cbv [bind ret raise lift get put send set_index set_chunks set_metadata
       embeddings_request chat_request].




Lemma suffix_ne (p : str) : p ++ lit ".pkl" ≠ p ++ lit ".faiss".
Proof. intros H. apply app_inv_head in H. discriminate H. Qed.




(** Round trip: after [save_index] under a path with a directory part,
    [load_index] of the same path, on any object, succeeds and installs
    the index, the chunks and the metadata of the saved object. *)
Theorem save_then_load (fs : gmap str file) (index_path : str)
    (w : world) (idx : IndexFlatL2) :
  index (self w) = Some idx →
  dirname index_path ≠ [] →
  ∃ fs',
    save_index fs index_path w = (w, Ok fs')
    ∧ ∀ unpickle_index w2,
        load_index unpickle_index fs' index_path w2
        = (mk_world
             (with_metadata
                (with_chunks (with_index (self w2) (Some idx))
                   (chunks (self w)))
                (metadata (self w)))
             (calls w2),
           Ok tt).
Proof.
  intros Hidx Hdir. unfold save_index. run. destruct w as [s sent].
  simpl in *. rewrite Hidx.
  destruct (dirname index_path) as [|c r]; [done |]. simpl.
  eexists. split; [reflexivity |]. intros unpickle_index w2.
  unfold load_index, read_index, pickle_load, file_at. run.
  rewrite lookup_insert_ne by apply suffix_ne. rewrite lookup_insert_eq.
  simpl. rewrite lookup_insert_eq. reflexivity.
Qed.

Lemma save_then_load_witness :
  ∃ fs',
    save_index ∅ (lit "data/faiss_indices/user_1/doc_1") demo_built
      = (demo_built, Ok fs')
    ∧ ∀ unpickle_index w2,
        load_index unpickle_index fs'
          (lit "data/faiss_indices/user_1/doc_1") w2
        = (mk_world
             (with_metadata
                (with_chunks
                   (with_index (self w2)
                      (Some (mk_index 1 [[0%Q]; [1%Q]])))
                   (chunks (self demo_built)))
                (metadata (self demo_built)))
             (calls w2),
           Ok tt).
Proof.
  apply (save_then_load ∅ (lit "data/faiss_indices/user_1/doc_1") demo_built
           (mk_index 1 [[0%Q]; [1%Q]])).
  - reflexivity.
  - vm_compute. discriminate.
Defined.

End Persistence.

(** ** Embedding, index building and queries *)

Section Embedding.
Import Numpy Faiss RAGSystem Demo.

Ltac run :=
  cbv [bind ret raise lift get put send set_index set_chunks set_metadata
       embeddings_request chat_request].

Lemma slice_batch {A} (l : list A) (a : nat) :
  slice l (Z.of_nat a) (Z.of_nat a + 100) = take 100 (drop a l).
Proof.
  unfold slice, slice_bound.
  destruct (Z.ltb_spec (Z.of_nat a) 0); [lia |].
  destruct (Z.ltb_spec (Z.of_nat a + 100) 0); [lia |].
  destruct (Nat.le_gt_cases a (length l)) as [Hle | Hgt].
  - replace (Z.to_nat (Z.min (Z.of_nat a) (Z.of_nat (length l)))) with a by lia.
    destruct (Nat.le_gt_cases (a + 100) (length l)).
    + f_equal. lia.
    + rewrite !take_ge; [done | |]; rewrite length_drop; lia.
  - rewrite (drop_ge l a) by lia.
    rewrite (drop_ge l) by lia. by rewrite !take_nil.
Qed.

Lemma concat_batches_upto {A} (l : list A) (m : nat) :
  concat (List.map (λ j, take 100 (drop (j * 100) l)) (seq 0 m))
  = take (m * 100) l.
Proof.
  induction m as [|m IH]; [by rewrite take_0 |].
  rewrite seq_S, map_app, concat_app, IH. simpl.
  rewrite app_nil_r, take_take_drop. f_equal. lia.
Qed.

Lemma batches_offsets (texts : list str) :
  batches texts
  = List.map (λ j, take 100 (drop (j * 100) texts))
      (seq 0 (Nat.div (length texts + 100 - 1) 100)).
Proof.
  unfold batches, range_step. rewrite List.map_map.
  apply map_ext. intros j. apply slice_batch.
Qed.

(** The batches are the texts, in order, each exactly once. *)
Lemma concat_batches (texts : list str) : concat (batches texts) = texts.
Proof.
  rewrite batches_offsets, concat_batches_upto.
  apply take_ge.
  pose proof (Nat.div_mod_eq (length texts + 100 - 1) 100).
  pose proof (Nat.mod_upper_bound (length texts + 100 - 1) 100).
  lia.
Qed.

(** No batch is empty and none has more than 100 texts. *)
Lemma batches_sizes (texts : list str) :
  Forall (λ b : list str, (0 < length b <= 100)%nat) (batches texts).
Proof.
  rewrite batches_offsets. apply Forall_forall. intros b Hb.
  apply list_elem_of_In, in_map_iff in Hb as (j & <- & Hj).
  apply in_seq in Hj.
  pose proof (Nat.div_mod_eq (length texts + 100 - 1) 100).
  pose proof (Nat.mod_upper_bound (length texts + 100 - 1) 100).
  rewrite length_take, length_drop. lia.
Qed.

(** With a backend that answers every request, the loop sends one request
    per offset and gathers the answers in order. *)
Lemma embed_batches_run (resp : list str → list vec) (texts : list str)
    (offsets : list nat) (acc : list vec) (w : world) :
  (∀ b, embeddings_create (client (self w)) b (embedding_model (self w))
        = Ok (resp b)) →
  embed_batches offsets texts acc w
  = (mk_world (self w)
       (calls w ++
        List.map (λ i, EmbeddingsCreate
                         (slice texts (Z.of_nat i) (Z.of_nat i + 100))
                         (embedding_model (self w))) offsets),
     Ok (acc ++
         concat (List.map
                   (λ i, resp (slice texts (Z.of_nat i) (Z.of_nat i + 100)))
                   offsets))).
Proof.
  intros Hresp. revert acc w Hresp.
  induction offsets as [|i rest IH]; intros acc w Hresp.
  - simpl. unfold ret. destruct w. simpl. by rewrite !app_nil_r.
  - cbn [embed_batches]. run. cbn [self calls]. rewrite Hresp.
    rewrite IH by exact Hresp. cbn [self calls List.map concat].
    by rewrite <- !app_assoc.
Qed.

Lemma create_embeddings_run (resp : list str → list vec) (texts : list str)
    (w : world) :
  (∀ b, embeddings_create (client (self w)) b (embedding_model (self w))
        = Ok (resp b)) →
  create_embeddings texts w
  = (mk_world (self w)
       (calls w ++
        List.map (λ b, EmbeddingsCreate b (embedding_model (self w)))
          (batches texts)),
     Numpy.array (concat (List.map resp (batches texts)))).
Proof.
  intros Hresp. unfold create_embeddings. cbv zeta. unfold bind at 1.
  rewrite (embed_batches_run resp) by exact Hresp.
  unfold lift, batches. by rewrite !List.map_map.
Qed.

(** With a backend that answers every request, [create_embeddings] sends
    the texts in batches of at most 100, none empty, that put end to end
    are the texts: every text is sent exactly once, in order.  The object
    is not changed. *)
Theorem create_embeddings_batches (texts : list str) (w : world) :
  (∀ b, ∃ v, embeddings_create (client (self w)) b (embedding_model (self w))
             = Ok v) →
  (create_embeddings texts w).1
  = mk_world (self w)
      (calls w ++
       List.map (λ b, EmbeddingsCreate b (embedding_model (self w)))
         (batches texts))
  ∧ concat (batches texts) = texts
  ∧ Forall (λ b : list str, (0 < length b <= 100)%nat) (batches texts).
Proof.
  intros Hok. split; [| split; [apply concat_batches | apply batches_sizes]].
  rewrite (create_embeddings_run
             (λ b, match embeddings_create (client (self w)) b
                           (embedding_model (self w)) with
                   | Ok v => v
                   | Raise _ => []
                   end)); [done |].
  intros b. by destruct (Hok b) as [v ->].
Qed.

Lemma create_embeddings_batches_witness :
  (create_embeddings (replicate 250 (lit "t")) demo_fresh).1
  = mk_world (self demo_fresh)
      (calls demo_fresh ++
       List.map (λ b, EmbeddingsCreate b (embedding_model (self demo_fresh)))
         (batches (replicate 250 (lit "t"))))
  ∧ concat (batches (replicate 250 (lit "t"))) = replicate 250 (lit "t")
  ∧ Forall (λ b : list str, (0 < length b <= 100)%nat)
      (batches (replicate 250 (lit "t"))).
Proof.
  apply (create_embeddings_batches (replicate 250 (lit "t")) demo_fresh).
  intros b. eexists. reflexivity.
Defined.

(** With a backend that embeds each text by itself, batching does not show:
    the result is the array of the embeddings of the texts, in their
    order, as one request for all of them would give. *)
Theorem create_embeddings_aligned (f : str → vec) (texts : list str)
    (w : world) :
  (∀ b, embeddings_create (client (self w)) b (embedding_model (self w))
        = Ok (List.map f b)) →
  (create_embeddings texts w).2 = Numpy.array (List.map f texts).
Proof.
  intros Hf. rewrite (create_embeddings_run (List.map f)) by exact Hf.
  simpl. by rewrite <- concat_map, concat_batches.
Qed.

Lemma create_embeddings_aligned_witness :
  (create_embeddings (replicate 250 (lit "t")) demo_fresh).2
  = Numpy.array (List.map (λ _, [0%Q]) (replicate 250 (lit "t"))).
Proof.
  apply (create_embeddings_aligned (λ _, [0%Q]) (replicate 250 (lit "t"))
           demo_fresh).
  intros b. reflexivity.
Defined.

Lemma range_step_first (n : nat) :
  (0 < n)%nat → ∃ rest, range_step n 100 = O :: rest.
Proof.
  intros Hn. unfold range_step.
  destruct (Nat.div (n + 100 - 1) 100) as [|m] eqn:Hm.
  - pose proof (Nat.div_mod_eq (n + 100 - 1) 100).
    pose proof (Nat.mod_upper_bound (n + 100 - 1) 100). lia.
  - simpl. by eexists.
Qed.

(** When the first embedding request fails, [create_index] passes the
    exception on after that one request and leaves [self.index] as it was,
    but [self.chunks] and [self.metadata] already hold the new lists. *)
Theorem create_index_backend_failure (chunks : list str)
    (metadata : option (list Dict)) (w : world) (e : exn) :
  chunks ≠ [] →
  embeddings_create (client (self w)) (slice chunks 0 100)
    (embedding_model (self w)) = Raise e →
  create_index chunks metadata w
  = (mk_world
       (with_metadata (with_chunks (self w) chunks)
          (match metadata with
           | Some ((_ :: _) as m) => m
           | _ => default_metadata chunks
           end))
       (calls w ++
        [EmbeddingsCreate (slice chunks 0 100) (embedding_model (self w))]),
     Raise e).
Proof.
  intros Hne Hfail. unfold create_index, create_embeddings. cbv zeta.
  destruct (range_step_first (length chunks)) as [rest ->];
    [destruct chunks; [done | simpl; lia] |].
  cbn [embed_batches]. run. destruct w as [s sent]. cbn [self calls] in *.
  change (Z.of_nat 0) with 0.
  destruct s. cbn in *. change (0 + 100) with 100. rewrite Hfail.
  reflexivity.
Qed.

Lemma create_index_backend_failure_witness :
  create_index [lit "a"; lit "b"] None
    (mk_world
       (mk (mk_client (λ _ _, Raise (Exn "RateLimitError"))
              (λ _ _ _ _, Ok []))
           (lit "gpt") (lit "ada") None [] [])
       [])
  = (mk_world
       (with_metadata
          (with_chunks
             (mk (mk_client (λ _ _, Raise (Exn "RateLimitError"))
                    (λ _ _ _ _, Ok []))
                 (lit "gpt") (lit "ada") None [] [])
             [lit "a"; lit "b"])
          (default_metadata [lit "a"; lit "b"]))
       ([] ++ [EmbeddingsCreate (slice [lit "a"; lit "b"] 0 100) (lit "ada")]),
     Raise (Exn "RateLimitError")).
Proof.
  apply (create_index_backend_failure [lit "a"; lit "b"] None
           (mk_world
              (mk (mk_client (λ _ _, Raise (Exn "RateLimitError"))
                     (λ _ _ _ _, Ok []))
                  (lit "gpt") (lit "ada") None [] [])
              [])
           (Exn "RateLimitError")).
  - discriminate.
  - reflexivity.
Defined.

Lemma array_uniform (f : str → vec) (dim : nat) (texts : list str) :
  (∀ t, length (f t) = dim) → texts ≠ [] →
  Numpy.array (List.map f texts)
  = Ok (mk_array [Z.of_nat (length texts); Z.of_nat dim] (List.map f texts)).
Proof.
  intros Hdim Hne. destruct texts as [|t0 r]; [done |].
  unfold Numpy.array. cbn [List.map].
  match goal with
  | |- context [forallb ?g ?l] => assert (forallb g l = true) as ->
  end.
  { apply forallb_forall. intros x Hx.
    change (In x (List.map f (t0 :: r))) in Hx.
    apply in_map_iff in Hx as (y & <- & _).
    rewrite !Hdim. apply Nat.eqb_refl. }
  rewrite Hdim. cbn [length]. by rewrite length_map.
Qed.

(** With a backend that embeds each text by itself in [dim] dimensions,
    [create_index] on a non-empty chunk list succeeds: the index holds one
    vector per chunk, in the order of the chunks, and the object holds the
    chunks and as many metadata entries when none were given. *)
Theorem create_index_builds (f : str → vec) (dim : nat) (chunks : list str)
    (metadata : option (list Dict)) (w : world) :
  (∀ b, embeddings_create (client (self w)) b (embedding_model (self w))
        = Ok (List.map f b)) →
  (∀ t, length (f t) = dim) →
  chunks ≠ [] →
  let built := mk_index (Z.of_nat dim) (List.map f chunks) in
  (create_index chunks metadata w).2 = Ok built
  ∧ self (create_index chunks metadata w).1
    = with_index
        (with_metadata (with_chunks (self w) chunks)
           (match metadata with
            | Some ((_ :: _) as m) => m
            | _ => default_metadata chunks
            end))
        (Some built)
  ∧ ntotal built = len chunks
  ∧ length (default_metadata chunks) = length chunks.
Proof.
  intros Hf Hdim Hne built.
  assert (create_embeddings chunks
            (mk_world
               (with_metadata (with_chunks (self w) chunks)
                  (match metadata with
                   | Some ((_ :: _) as m) => m
                   | _ => default_metadata chunks
                   end))
               (calls w))
          = (mk_world
               (with_metadata (with_chunks (self w) chunks)
                  (match metadata with
                   | Some ((_ :: _) as m) => m
                   | _ => default_metadata chunks
                   end))
               (calls w ++
                List.map (λ b, EmbeddingsCreate b (embedding_model (self w)))
                  (batches chunks)),
             Ok (mk_array [Z.of_nat (length chunks); Z.of_nat dim]
                   (List.map f chunks)))) as Hemb.
  { rewrite (create_embeddings_run (List.map f)) by exact Hf.
    rewrite <- concat_map, concat_batches, (array_uniform f dim) by done.
    done. }
  unfold create_index.
  unfold bind at 1. unfold set_chunks at 1. run. cbn [self calls fst snd].
  change (with_metadata (with_chunks (self w) chunks) ?m)
    with (with_metadata (with_chunks (self w) chunks) m) in Hemb.
  rewrite Hemb. cbn [self calls fst snd].
  unfold shape_at, py_index. cbn [shape length].
  change (1 <? 0) with false. cbv iota.
  change (0 <=? 1) with true. change (1 <? Z.of_nat 2) with true.
  cbn [andb]. change (Z.to_nat 1) with 1%nat. cbn [lookup list_lookup].
  unfold add. cbn [shape d rows]. rewrite Z.eqb_refl. cbn [xb app].
  cbn [self calls fst snd].
  split; [reflexivity |]. split; [reflexivity |]. split.
  - unfold ntotal, len. simpl. by rewrite length_map.
  - unfold default_metadata. by rewrite length_map, length_seq.
Qed.

Lemma create_index_builds_witness :
  (create_index [lit "a"; lit "b"; lit "c"] None demo_fresh).2
  = Ok (mk_index (Z.of_nat 1)
          (List.map (λ _, [0%Q]) [lit "a"; lit "b"; lit "c"]))
  ∧ self (create_index [lit "a"; lit "b"; lit "c"] None demo_fresh).1
    = with_index
        (with_metadata
           (with_chunks (self demo_fresh) [lit "a"; lit "b"; lit "c"])
           (default_metadata [lit "a"; lit "b"; lit "c"]))
        (Some (mk_index (Z.of_nat 1)
                 (List.map (λ _, [0%Q]) [lit "a"; lit "b"; lit "c"])))
  ∧ ntotal (mk_index (Z.of_nat 1)
              (List.map (λ _, [0%Q]) [lit "a"; lit "b"; lit "c"]))
    = len [lit "a"; lit "b"; lit "c"]
  ∧ length (default_metadata [lit "a"; lit "b"; lit "c"])
    = length [lit "a"; lit "b"; lit "c"].
Proof.
  apply (create_index_builds (λ _, [0%Q]) 1 [lit "a"; lit "b"; lit "c"] None
           demo_fresh).
  - intros b. reflexivity.
  - intros t. reflexivity.
  - discriminate.
Defined.

End Embedding.

(** ** Queries *)

Section Queries.
Import Numpy Faiss RAGSystem Demo.

Ltac run :=
  cbv [bind ret raise lift get put send set_index set_chunks set_metadata
       embeddings_request chat_request].

Lemma read_only_bind {A B} (m : M A) (k : A → M B) :
  read_only m → (∀ a, read_only (k a)) → read_only (bind m k).
Proof.
  intros Hm Hk w. unfold bind. specialize (Hm w).
  destruct (m w) as [w1 [a | e]]; simpl in *; [| done].
  by rewrite Hk.
Qed.

Lemma read_only_lift {A} (r : res A) : read_only (lift r).
Proof. by intros w. Qed.

Lemma read_only_ret {A} (a : A) : read_only (ret a).
Proof. by intros w. Qed.

Lemma read_only_raise {A} (e : exn) : read_only (@raise A e).
Proof. by intros w. Qed.

Lemma read_only_get : read_only get.
Proof. by intros w. Qed.

Lemma read_only_send (c : call) : read_only (send c).
Proof. by intros w. Qed.

Lemma read_only_embeddings_request (batch : list str) :
  read_only (embeddings_request batch).
Proof.
  unfold embeddings_request.
  apply read_only_bind; [apply read_only_get | intros s].
  apply read_only_bind; [apply read_only_send | intros _].
  apply read_only_lift.
Qed.

Lemma read_only_chat_request (messages : list message) (temperature : Q)
    (max_tokens : Z) : read_only (chat_request messages temperature max_tokens).
Proof.
  unfold chat_request.
  apply read_only_bind; [apply read_only_get | intros s].
  apply read_only_bind; [apply read_only_send | intros _].
  apply read_only_lift.
Qed.

Lemma read_only_embed_batches (offsets : list nat) (texts : list str)
    (acc : list vec) : read_only (embed_batches offsets texts acc).
Proof.
  revert acc. induction offsets as [|i rest IH]; intros acc; simpl.
  - apply read_only_ret.
  - apply read_only_bind; [apply read_only_embeddings_request | intros v].
    apply IH.
Qed.

Lemma read_only_create_embeddings (texts : list str) :
  read_only (create_embeddings texts).
Proof.
  unfold create_embeddings.
  apply read_only_bind; [apply read_only_embed_batches | intros v].
  apply read_only_lift.
Qed.

Lemma read_only_search (query : str) (k : Z) : read_only (search query k).
Proof.
  unfold search. apply read_only_bind; [apply read_only_get | intros s].
  destruct (index s) as [idx|]; [| apply read_only_raise].
  apply read_only_bind; [apply read_only_create_embeddings | intros q].
  apply read_only_bind; [apply read_only_lift | intros [distances indices]].
  apply read_only_bind; [apply read_only_lift | intros i0].
  apply read_only_bind; [apply read_only_lift | intros d0].
  apply read_only_lift.
Qed.

(** The query methods assign no field: whatever the backends answer,
    [search], [chat], [generate_response], the two generators and
    [summarize_document] leave the index, the chunks and the metadata of
    the object as they were. *)
Theorem queries_are_read_only (query : str) (k : Z)
    (chat_history : option (list message)) (temperature : Q)
    (context_chunks : list str) (system_prompt : option str) (max_tokens : Z)
    (rng : nat → list nat) (num_questions : Z) (difficulty : str)
    (topic : option str) (num_cards max_length : Z) :
  read_only (search query k)
  ∧ read_only (chat query k chat_history temperature)
  ∧ read_only (generate_response query context_chunks chat_history
                 system_prompt temperature max_tokens)
  ∧ read_only (generate_quiz_questions rng num_questions difficulty topic)
  ∧ read_only (generate_flashcards rng num_cards topic)
  ∧ read_only (summarize_document max_length).
Proof.
  split; [| split; [| split; [| split; [| split]]]].
  - apply read_only_search.
  - unfold chat. apply read_only_bind; [apply read_only_search | intros r].
    apply read_only_bind; [apply read_only_chat_request | intros a].
    apply read_only_ret.
  - apply read_only_chat_request.
  - unfold generate_quiz_questions.
    apply read_only_bind; [apply read_only_get | intros s].
    apply read_only_bind; [apply read_only_lift | intros c].
    apply read_only_bind; [apply read_only_chat_request | intros a].
    apply read_only_ret.
  - unfold generate_flashcards.
    apply read_only_bind; [apply read_only_get | intros s].
    apply read_only_bind; [apply read_only_lift | intros c].
    apply read_only_bind; [apply read_only_chat_request | intros a].
    apply read_only_ret.
  - unfold summarize_document.
    apply read_only_bind; [apply read_only_get | intros s].
    apply read_only_bind; [apply read_only_lift | intros c].
    apply read_only_chat_request.
Qed.

Lemma search_calls (query : str) (k : Z) (w : world) (idx : IndexFlatL2) :
  index (self w) = Some idx →
  calls (search query k w).1
  = calls w ++ [EmbeddingsCreate [query] (embedding_model (self w))].
Proof.
  intros Hidx. unfold search, create_embeddings. run. rewrite Hidx.
  change (range_step (length [query]) 100) with [0%nat].
  cbn [embed_batches]. run.
  change (slice [query] (Z.of_nat 0) (Z.of_nat 0 + 100)) with [query].
  cbn [self calls].
  destruct (embeddings_create _ _ _) as [v|e]; [| done]. cbn [app].
  destruct (Numpy.array v) as [a|e]; [| done].
  destruct (Faiss.search idx a k) as [[distances indices]|e]; [| done].
  destruct (py_index indices 0) as [i0|e]; [| done].
  destruct (py_index distances 0) as [d0|e]; done.
Qed.

(** With an index, [search] sends exactly one request, the embedding of the
    query alone, whatever the outcome of the call is. *)
Theorem search_sends_one_request (query : str) (k : Z) (w : world)
    (idx : IndexFlatL2) :
  index (self w) = Some idx →
  calls (search query k w).1
  = calls w ++ [EmbeddingsCreate [query] (embedding_model (self w))].
Proof. apply search_calls. Qed.

Lemma search_sends_one_request_witness :
  calls (search (lit "q") 3 demo_built).1
  = calls demo_built
    ++ [EmbeddingsCreate [lit "q"] (embedding_model (self demo_built))].
Proof.
  apply (search_sends_one_request (lit "q") 3 demo_built
           (mk_index 1 [[0%Q]; [1%Q]])).
  reflexivity.
Defined.

(** On an object whose chunk and metadata lists are as long as its
    non-empty index, and with a backend that embeds the query in the
    dimension of the index, [search] returns exactly [k] results for every
    positive [k], also when [k] exceeds the number of indexed vectors. *)
Theorem search_result_count (w : world) (idx : IndexFlatL2) (query : str)
    (k : Z) (v : vec) :
  index (self w) = Some idx →
  (0 < length (xb idx))%nat →
  length (chunks (self w)) = length (xb idx) →
  length (metadata (self w)) = length (xb idx) →
  embeddings_create (client (self w)) [query] (embedding_model (self w))
    = Ok [v] →
  Z.of_nat (length v) = d idx →
  0 < k →
  ∃ results, (search query k w).2 = Ok results ∧ len results = k.
Proof. apply search_returns_k_results. Qed.

Lemma search_result_count_witness :
  ∃ results, (search (lit "q") 5 demo_built).2 = Ok results ∧ len results = 5.
Proof.
  apply (search_result_count demo_built (mk_index 1 [[0%Q]; [1%Q]]) (lit "q")
           5 [0%Q]).
  - reflexivity.
  - simpl. lia.
  - reflexivity.
  - reflexivity.
  - reflexivity.
  - reflexivity.
  - reflexivity.
Defined.

(** [chat] is [search] followed by one chat request.  When [search] raises,
    for want of an index or through the embedding backend, [chat] raises
    the same and sends nothing more; otherwise it sends the system prompt,
    the history and the question over the retrieved texts, and returns the
    answer with one source per search result, in the order of the
    results. *)
Theorem chat_after_search (query : str) (k : Z)
    (chat_history : option (list message)) (temperature : Q) (w : world) :
  match search query k w with
  | (w1, Raise e) =>
      chat query k chat_history temperature w = (w1, Raise e)
  | (w1, Ok results) =>
      let messages :=
        response_messages query (List.map (λ r, r.1.1) results)
          chat_history None in
      chat query k chat_history temperature w
      = (mk_world (self w1)
           (calls w1 ++
            [ChatCompletionsCreate (deployment_name (self w1)) messages
               temperature 1000]),
         res_map (λ answer, (answer, List.map to_source results))
           (chat_completions_create (client (self w1))
              (deployment_name (self w1)) messages temperature 1000))
      ∧ hd_error messages
        = Some (mk_message (lit "system") default_system_prompt)
      ∧ (role <$> last messages) = Some (lit "user")
  end.
Proof.
  destruct (search query k w) as [w1 [results | e]] eqn:Hs.
  - cbv zeta. split; [| split].
    + unfold chat, generate_response. unfold bind at 1. rewrite Hs.
      run. by destruct (chat_completions_create _ _ _ _ _).
    + unfold response_messages. cbv zeta.
      by destruct chat_history as [[|m0 ms]|].
    + unfold response_messages. cbv zeta. by rewrite last_snoc.
  - unfold chat. unfold bind at 1. by rewrite Hs.
Qed.


(** On an object whose lists match its non-empty index, with backends that
    answer, [chat] sends two requests, the embedding of the query and then
    one chat request, changes nothing of the object, and returns the answer
    together with exactly [k] sources. *)
Theorem chat_cites_k_sources (w : world) (idx : IndexFlatL2) (query : str)
    (k : Z) (v : vec) (chat_history : option (list message))
    (temperature : Q) (answer : str) :
  index (self w) = Some idx →
  (0 < length (xb idx))%nat →
  length (chunks (self w)) = length (xb idx) →
  length (metadata (self w)) = length (xb idx) →
  embeddings_create (client (self w)) [query] (embedding_model (self w))
    = Ok [v] →
  Z.of_nat (length v) = d idx →
  0 < k →
  (∀ messages,
     chat_completions_create (client (self w)) (deployment_name (self w))
       messages temperature 1000 = Ok answer) →
  ∃ sources messages,
    chat query k chat_history temperature w
    = (mk_world (self w)
         (calls w ++
          [EmbeddingsCreate [query] (embedding_model (self w));
           ChatCompletionsCreate (deployment_name (self w)) messages
             temperature 1000]),
       Ok (answer, sources))
    ∧ len sources = k.
Proof.
  intros Hidx Hn Hc Hm Hemb Hd Hk Hans.
  destruct (search_returns_k_results w idx query k v Hidx Hn Hc Hm Hemb Hd Hk)
    as (results & Hres & Hlen).
  pose proof (search_calls query k w idx Hidx) as Hcalls.
  pose proof (read_only_search query k w) as Hself.
  destruct (search query k w) as [w1 r] eqn:Hs. simpl in Hres, Hcalls, Hself.
  subst r. destruct w1 as [s1 c1]. simpl in Hcalls, Hself. subst s1 c1.
  exists (List.map to_source results),
         (response_messages query (List.map (λ r, r.1.1) results)
            chat_history None).
  split.
  - unfold chat, generate_response. unfold bind at 1. rewrite Hs. run.
    cbn [self calls]. rewrite Hans. by rewrite <- app_assoc.
  - unfold len in *. by rewrite length_map.
Qed.

Lemma chat_cites_k_sources_witness :
  ∃ sources messages,
    chat (lit "q") 5 None (7 # 10)%Q demo_built
    = (mk_world (self demo_built)
         (calls demo_built ++
          [EmbeddingsCreate [lit "q"] (embedding_model (self demo_built));
           ChatCompletionsCreate (deployment_name (self demo_built))
             messages (7 # 10)%Q 1000]),
       Ok (lit "Sorry, I cannot help with that.", sources))
    ∧ len sources = 5.
Proof.
  apply (chat_cites_k_sources demo_built (mk_index 1 [[0%Q]; [1%Q]]) (lit "q")
           5 [0%Q] None (7 # 10)%Q (lit "Sorry, I cannot help with that.")).
  - reflexivity.
  - simpl. lia.
  - reflexivity.
  - reflexivity.
  - reflexivity.
  - reflexivity.
  - reflexivity.
  - intros messages. reflexivity.
Defined.

(** Without an index [chat] raises ValueError and sends no request. *)
Theorem chat_requires_index (query : str) (k : Z)
    (chat_history : option (list message)) (temperature : Q) (w : world) :
  index (self w) = None →
  chat query k chat_history temperature w = (w, Raise (Exn "ValueError")).
Proof.
  intros Hidx. unfold chat, search. run. rewrite Hidx. by destruct w.
Qed.

Lemma chat_requires_index_witness :
  chat (lit "q") 5 None (7 # 10)%Q demo_fresh
  = (demo_fresh, Raise (Exn "ValueError")).
Proof.
  apply (chat_requires_index (lit "q") 5 None (7 # 10)%Q demo_fresh).
  reflexivity.
Defined.

Lemma pick_seq (pre l : list str) :
  pick (pre ++ l) (seq (length pre) (length l)) = Ok l.
Proof.
  revert pre. induction l as [|c r IH]; intros pre; [done |].
  simpl. unfold py_index.
  destruct (Z.ltb_spec (Z.of_nat (length pre)) 0); [lia |].
  rewrite length_app. simpl length.
  destruct (Z.leb_spec 0 (Z.of_nat (length pre))); [| lia].
  destruct (Z.ltb_spec (Z.of_nat (length pre))
              (Z.of_nat (length pre + S (length r)))); [| lia].
  simpl. rewrite Nat2Z.id, list_lookup_middle by done. simpl.
  replace (pre ++ c :: r) with ((pre ++ [c]) ++ r)
    by (by rewrite <- app_assoc).
  replace (S (length pre)) with (length (pre ++ [c]))
    by (rewrite length_app; simpl; lia).
  by rewrite IH.
Qed.

Lemma summary_step (n : nat) :
  (n < 40)%nat →
  (if (0 <? Nat.min 20 n)%nat then Nat.div n (Nat.min 20 n) else 1%nat)
  = 1%nat.
Proof.
  intros Hn. destruct (Nat.ltb_spec 0 (Nat.min 20 n)) as [Hpos | _]; [| done].
  destruct (Nat.le_gt_cases n 20) as [Hle | Hgt].
  - rewrite Nat.min_r by done. apply Nat.div_same. lia.
  - rewrite Nat.min_l by lia.
    pose proof (Nat.div_mod_eq n 20). pose proof (Nat.mod_upper_bound n 20).
    assert (Nat.div n 20 < 2)%nat by (apply Nat.Div0.div_lt_upper_bound; lia).
    lia.
Qed.

Lemma summary_sample_all (chunks : list str) :
  (length chunks < 40)%nat → summary_sample chunks = Ok chunks.
Proof.
  intros Hn. unfold summary_sample. cbv zeta.
  rewrite summary_step by done.
  unfold py_range_step, range_step. simpl Nat.eqb. cbv iota.
  replace (length chunks + 1 - 1)%nat with (length chunks) by lia.
  rewrite Nat.div_1_r. cbn [res_bind].
  rewrite (map_ext (λ j, (j * 1)%nat) id) by (intros; unfold id; lia).
  rewrite List.map_id. apply (pick_seq [] chunks).
Qed.

(** With fewer than forty chunks [summarize_document] reads every chunk, in
    order, although it means to sample at most twenty: it sends one chat
    request over all of them, with twice [max_length] as the token limit,
    and returns what the backend answers. *)
Theorem summarize_document_below_forty (max_length : Z) (w : world) :
  (length (chunks (self w)) < 40)%nat →
  let messages :=
    summary_messages
      (summary_prompt max_length (join [LF; LF] (chunks (self w)))) in
  summarize_document max_length w
  = (mk_world (self w)
       (calls w ++
        [ChatCompletionsCreate (deployment_name (self w)) messages
           (5 # 10)%Q (max_length * 2)]),
     chat_completions_create (client (self w)) (deployment_name (self w))
       messages (5 # 10)%Q (max_length * 2)).
Proof.
  intros Hn messages. unfold summarize_document. run.
  by rewrite (summary_sample_all _ Hn).
Qed.

Lemma summarize_document_below_forty_witness :
  summarize_document 500 demo_built
  = (mk_world (self demo_built)
       (calls demo_built ++
        [ChatCompletionsCreate (deployment_name (self demo_built))
           (summary_messages
              (summary_prompt 500
                 (join [LF; LF] (chunks (self demo_built)))))
           (5 # 10)%Q (500 * 2)]),
     chat_completions_create (client (self demo_built))
       (deployment_name (self demo_built))
       (summary_messages
          (summary_prompt 500 (join [LF; LF] (chunks (self demo_built)))))
       (5 # 10)%Q (500 * 2)).
Proof.
  apply (summarize_document_below_forty 500 demo_built).
  vm_compute. lia.
Defined.

(** [summarize_document] never fails in its sampling, and the sample has
    between [min(20, n)] and [min(39, n)] of the [n] chunks. *)
Theorem summary_sample_size (chunks : list str) :
  ∃ sampled,
    summary_sample chunks = Ok sampled
    ∧ (Nat.min 20 (length chunks) <= length sampled
       <= Nat.min 39 (length chunks))%nat.
Proof.
  destruct (Nat.lt_ge_cases (length chunks) 40) as [Hlt | Hge].
  - exists chunks. split; [by apply summary_sample_all |]. lia.
  - unfold summary_sample. cbv zeta.
    set (n := length chunks) in *.
    rewrite Nat.min_l by lia. change (0 <? 20)%nat with true. cbv iota.
    set (q := Nat.div n 20).
    pose proof (Nat.div_mod_eq n 20) as Hdm.
    pose proof (Nat.mod_upper_bound n 20) as Hmod.
    fold q in Hdm.
    assert (2 <= q)%nat as Hq by lia.
    unfold py_range_step. destruct (Nat.eqb_spec q 0); [lia |].
    cbn [res_bind]. unfold range_step.
    set (m := Nat.div (n + q - 1) q).
    assert (m * q <= n + q - 1 < (m + 1) * q)%nat as Hm.
    { pose proof (Nat.div_mod_eq (n + q - 1) q).
      pose proof (Nat.mod_upper_bound (n + q - 1) q). fold m in H. nia. }
    destruct (pick_in_range chunks (List.map (λ j, (j * q)%nat) (seq 0 m)))
      as (picked & -> & Hlen).
    + apply Forall_forall. intros i Hi.
      apply list_elem_of_In, in_map_iff in Hi as (j & <- & Hj).
      apply in_seq in Hj. fold n. nia.
    + exists picked. split; [done |].
      rewrite Hlen, length_map, length_seq. nia.
Qed.

End Queries.

(** ** Coverage of the text by the chunks *)

Section Coverage.
Import DocumentProcessor.

Lemma last_index_sound (ch : char) (l : str) (p : nat) :
  last_index ch l = Some p → l !! p = Some ch.
Proof.
  revert p. induction l as [|c r IH]; intros p; simpl; [done |].
  destruct (last_index ch r) as [q|].
  - intros [= <-]. by apply IH.
  - destruct (N.eqb_spec c ch) as [-> |]; [by intros [= <-] | done].
Qed.

(** What [rfind] finds is the character looked for, at or after the start
    bound. *)
Lemma rfind_sound (s : str) (ch : char) (i j : Z) :
  0 <= i → 0 <= rfind s ch i j →
  s !! Z.to_nat (rfind s ch i j) = Some ch ∧ i <= rfind s ch i j.
Proof.
  intros Hi. unfold rfind.
  destruct (last_index ch (slice s i j)) as [p|] eqn:Hp; [| lia].
  intros _. apply last_index_sound in Hp. unfold slice in Hp.
  apply lookup_take_Some in Hp as [Hp _]. rewrite lookup_drop in Hp.
  pose proof (lookup_lt_Some _ _ _ Hp) as Hlt.
  unfold slice_bound, len in *. destruct (Z.ltb_spec i 0); [lia |].
  split; [| lia]. rewrite <- Hp. f_equal. lia.
Qed.

Lemma strip_keeps (s : str) (c : char) :
  c ∈ s → isspace c = false → strip s ≠ [].
Proof.
  intros Hin Hc Hnil. apply strip_nil in Hnil.
  rewrite Forall_forall in Hnil. specialize (Hnil c Hin). congruence.
Qed.

(** The last character of a text that does not end in whitespace. *)
Lemma last_visible (s : str) :
  s ≠ [] → no_lead (rev s) →
  ∃ c, s !! Nat.pred (length s) = Some c ∧ isspace c = false.
Proof.
  intros Hne Hlead. destruct (rev s) as [|c r] eqn:Hr.
  - apply (f_equal (@rev _)) in Hr. rewrite rev_involutive in Hr. done.
  - exists c. split; [| done].
    apply (f_equal (@rev _)) in Hr. rewrite rev_involutive in Hr.
    subst s. change (rev (c :: r)) with (rev r ++ [c]).
    rewrite length_app. cbn [length]. unfold str.
    rewrite lookup_app_r by lia.
    by replace (Nat.pred (length (rev r) + 1) - length (rev r))%nat
      with O by lia.
Qed.

(** A window whose stripped content is empty was not snapped and does not
    reach the end of the text: it is a full window of whitespace. *)
Lemma blank_window_full (self : t) (text : str) (start : Z) :
  0 < chunk_size self → 0 <= start < len text → no_lead (rev text) →
  strip (slice text start (window_end self text start)) = [] →
  window_end self text start = start + chunk_size self
  ∧ start + chunk_size self < len text.
Proof.
  intros Hs [H0 Hlt] Hlead. unfold window_end. cbv zeta.
  assert (0 <= chunk_size self / 2) as Hhalf by (apply Z.div_pos; lia).
  assert (∀ ch e, isspace ch = false → 0 <= rfind text ch start e →
            strip (slice text start (rfind text ch start e + 1)) ≠ [])
    as Hfound.
  { intros ch e Hch Hr. destruct (rfind_sound text ch start e H0 Hr) as [Hl Hi].
    apply (strip_keeps _ ch); [| done].
    apply (slice_lookup text _ _ (Z.to_nat (rfind text ch start e)));
      [done | lia | done]. }
  destruct (Z.ltb_spec (start + chunk_size self) (len text)) as [Hin | Hout].
  - match goal with
    | |- context [?m >? ?y] => destruct (Z.gtb_spec m y) as [Hsnap | Hfull]
    end; [| done].
    intros Hnil. exfalso. revert Hnil Hsnap.
    match goal with
    | |- context [Z.max (Z.max ?p ?x) ?q] =>
        destruct (Z.max_spec (Z.max p x) q) as [[_ ->] | [_ ->]];
        [| destruct (Z.max_spec p x) as [[_ ->] | [_ ->]]]
    end.
    all: intros Hnil Hsnap; revert Hnil; apply Hfound; [done | lia].
  - intros Hnil. exfalso. revert Hnil.
    destruct (last_visible text) as (c & Hc & Hv); [| done |].
    { intros ->. unfold len in Hlt. simpl in Hlt. lia. }
    pose proof (lookup_lt_Some _ _ _ Hc) as Hl.
    apply (strip_keeps _ c); [| done].
    apply (slice_lookup text _ _ (Nat.pred (length text))); [done | | done].
    unfold len in *. lia.
Qed.

Section Scan.

Variable self : t.
Variable text : str.
Variable metadata : option (list Dict).

Hypothesis size_pos : 0 < chunk_size self.
Hypothesis overlap_nonneg : 0 <= chunk_overlap self.
Hypothesis overlap_lt : chunk_overlap self < chunk_size self.
Hypothesis overlap_half : chunk_overlap self <= chunk_size self / 2 + 1.
Hypothesis no_trail : no_lead (rev text).
Hypothesis typed : segments_typed metadata.

(** One window: it is emitted as a chunk, or it is a window of whitespace. *)
Lemma covered_before_window (chunks chunks' : list Dict) (id id' a : Z) :
  0 <= a < len text →
  emit_chunk metadata (strip (slice text a (window_end self text a)))
    a (window_end self text a) chunks id = Ok (chunks', id') →
  covered_before (chunk_size self) text chunks a →
  covered_before (chunk_size self) text chunks' (window_end self text a).
Proof.
  intros Ha Hemit Hcov i Hi Hib.
  destruct (emit_chunk_typed metadata
              (strip (slice text a (window_end self text a)))
              a (window_end self text a) chunks id typed)
    as (cs & n & Heq & Hcase).
  rewrite Hemit in Heq. injection Heq as <- <-.
  destruct (Z.lt_ge_cases i a) as [Hlt | Hge].
  - destruct (Hcov i Hi Hlt) as [(ch & Hin & Hr) | Hblank]; [| by right].
    left. exists ch. split; [| done].
    destruct Hcase as [[_ ->] | (_ & d & -> & _)]; [done |].
    apply elem_of_app. by left.
  - destruct Hcase as [[Hnil _] | (_ & d & -> & Hs & He & _)].
    + right. pose proof Hnil as Hall. apply strip_nil in Hall.
      rewrite Forall_forall in Hall.
      destruct (blank_window_full self text a size_pos Ha no_trail Hnil)
        as [Hend Hin].
      exists a. split; [lia |]. split; [lia |]. split; [lia |].
      intros j c Hj Hc. apply Hall.
      apply (slice_lookup text _ _ j); [lia | lia | done].
    + left. exists d. split; [apply elem_of_app; right; by left |].
      exists a, (window_end self text a). done.
Qed.

(** With the overlap at most half a window (plus one), the loop returns
    within [len text - start + 1] iterations, and the only positions it
    leaves outside the chunks are those of windows of whitespace. *)
Lemma chunk_loop_covers (fuel : nat) :
  ∀ start chunks id,
    0 <= start →
    (Z.to_nat (len text - start) < fuel)%nat →
    covered_before (chunk_size self) text chunks start →
    ∃ out, chunk_loop self fuel text metadata start chunks id = Some (Ok out)
           ∧ covers_but_blank out (chunk_size self) text.
Proof.
  induction fuel as [|fuel IH]; intros start chunks id H0 Hf Hcov; [lia |].
  rewrite chunk_loop_S.
  destruct (Z.ltb_spec start (len text)) as [Hlt | Hge].
  - assert (start + chunk_overlap self < window_end self text start) as Hp
      by (by apply window_end_progress).
    destruct (emit_chunk_typed metadata
                (strip (slice text start (window_end self text start)))
                start (window_end self text start) chunks id typed)
      as (cs & n & Heq & _).
    rewrite Heq.
    pose proof (covered_before_window _ _ _ _ _ (conj H0 Hlt) Heq Hcov)
      as Hcov'.
    set (e := window_end self text start) in *.
    destruct (Z.leb_spec (e - chunk_overlap self) 0) as [? | Hpos]; [lia |].
    rewrite Z.geb_leb.
    destruct (Z.leb_spec (len text) e) as [Hend | Hmore]; simpl.
    + exists cs. split; [done |]. intros i Hi. apply Hcov'; [done | lia].
    + apply IH; [lia | lia |].
      intros i Hi Hib. apply Hcov'; [done | lia].
  - exists chunks. split; [done |]. intros i Hi. apply Hcov; [done | lia].
Qed.

End Scan.

(** In a text of single spaces no two neighbours are both whitespace. *)
Lemma ws_collapsed_neighbours (s : str) (j : nat) (c d : char) :
  ws_collapsed s → s !! j = Some c → s !! S j = Some d →
  isspace c = true → isspace d = false.
Proof.
  revert j. induction s as [|x r IH]; intros j Hs Hc Hd Hw; [done |].
  destruct Hs as [Hx Hr]. destruct j as [|j].
  - simpl in Hc. injection Hc as ->. destruct (Hx Hw) as [_ Hnext].
    destruct r as [|y r']; [done |]. simpl in Hd. by injection Hd as ->.
  - by apply (IH j).
Qed.

(** A text of single spaces has no window of two or more whitespace
    characters. *)
Lemma ws_collapsed_no_blank_window (n : Z) (s : str) (i : Z) :
  2 <= n → ws_collapsed s → ¬ in_blank_window n s i.
Proof.
  intros Hn Hs (a & Ha & _ & Hend & Hall).
  unfold len in Hend.
  destruct (lookup_lt_is_Some_2 s (Z.to_nat a)) as [c Hc]; [lia |].
  destruct (lookup_lt_is_Some_2 s (S (Z.to_nat a))) as [d Hd]; [lia |].
  assert (isspace c = true) as Hwc by (apply (Hall (Z.to_nat a)); [lia | done]).
  assert (isspace d = true) as Hwd
    by (apply (Hall (S (Z.to_nat a))); [lia | done]).
  pose proof (ws_collapsed_neighbours s _ c d Hs Hc Hd Hwc). congruence.
Qed.

(** C7, amended: when moreover chunk_overlap <= chunk_size // 2 + 1 (and the
    segment bounds are integers), [create_chunks] returns, and every
    position of the normalised text lies in the [char_start, char_end) range
    of an emitted chunk, unless it lies in a stretch of chunk_size
    consecutive whitespace characters, a window that emits no chunk.  When
    chunk_size is at least 2 and the text has no NUL character there is no
    such stretch, and the chunks cover all of [0, len(text)). *)
Theorem create_chunks_covers (self : t) (text : str)
    (metadata : option (list Dict)) (fuel : nat) :
  0 < chunk_size self →
  0 <= chunk_overlap self < chunk_size self →
  chunk_overlap self <= chunk_size self / 2 + 1 →
  segments_typed metadata →
  (length (clean_text text) < fuel)%nat →
  ∃ chunks,
    create_chunks self fuel text metadata = Some (Ok chunks)
    ∧ covers_but_blank chunks (chunk_size self) (clean_text text)
    ∧ (2 <= chunk_size self → Forall (λ c, c ≠ NUL) text →
       covers chunks (len (clean_text text))).
Proof.
  intros Hs [H0 Ho] Hh Ht Hf. unfold create_chunks.
  destruct (chunk_loop_covers self (clean_text text) metadata Hs H0 Ho Hh)
    with (fuel := fuel) (start := 0) (chunks := @nil Dict) (id := 0)
    as (out & Hout & Hcov); try done.
  - rewrite clean_text_unfold. apply strip_no_trail.
  - unfold len. lia.
  - intros i Hi Hneg. lia.
  - exists out. split; [done |]. split; [done |].
    intros Hsize Hnul i Hi. destruct (Hcov i Hi) as [Hin | Hblank]; [done |].
    exfalso. revert Hblank. apply ws_collapsed_no_blank_window; [done |].
    rewrite clean_text_unfold.
    rewrite remove_char_absent
      by (apply re_sub_ws_Forall; [discriminate | done]).
    apply strip_ws_collapsed, re_sub_ws_collapsed.
Qed.

Lemma create_chunks_covers_witness :
  ∃ chunks,
    create_chunks (mk 10 2) 50
      (lit "Hello world. This is a test! Is it working? yes") None
      = Some (Ok chunks)
    ∧ covers chunks
        (len (clean_text
                (lit "Hello world. This is a test! Is it working? yes"))).
Proof.
  destruct (create_chunks_covers (mk 10 2)
              (lit "Hello world. This is a test! Is it working? yes") None 50)
    as (chunks & Hret & _ & Hall).
  - reflexivity.
  - split; [discriminate | reflexivity].
  - vm_compute. discriminate.
  - exact I.
  - vm_compute. lia.
  - exists chunks. split; [exact Hret |]. apply Hall.
    + vm_compute. discriminate.
    + repeat constructor; discriminate.
Defined.

End Coverage.
